(** * debug/testlib.py: process orchestration, gdb sessions and the test runner

    A shallow embedding of the harness in [debug/testlib.py].  Python objects
    become records, class-level and instance attributes become fields of an
    explicit state, exceptions become values of [exn] carried by [result], and
    every call that leaves the harness (a spawned process, a pexpect child, a
    method supplied by a test or by the target) is answered by an oracle that
    sees the events issued so far. *)

From Stdlib Require Import ZArith Lia Ascii.
From stdpp Require Import gmap strings list fin_maps pretty.

Local Open Scope string_scope.
Local Open Scope list_scope.

(** ** Python values, exceptions and results *)

(** The values a test body hands back to the runner: [None], an integer
    (booleans are the integers 0 and 1 in Python 2) or a string. *)
Inductive pyval : Type :=
| PyNone
| PyInt (n : Z)
| PyStr (s : string).

#[global] Instance pyval_eq_dec : EqDecision pyval.
Proof. solve_decision. Defined.

#[global] Instance pyval_countable : Countable pyval.
Proof.
  refine (inj_countable'
            (fun v => match v with
                      | PyNone => inl ()
                      | PyInt n => inr (inl n)
                      | PyStr s => inr (inr s)
                      end)
            (fun c => match c with
                      | inl _ => PyNone
                      | inr (inl n) => PyInt n
                      | inr (inr s) => PyStr s
                      end) _).
  by intros [].
Defined.

(** Python truth value: [not v] is [negb (truthy v)]. *)
Definition truthy (v : pyval) : bool :=
  match v with
  | PyNone => false
  | PyInt n => negb (n =? 0)%Z
  | PyStr s => negb (String.eqb s "")
  end.

(** The exception classes the harness raises or meets.  [KeyboardInterrupt]
    and [SystemExit] derive from BaseException only; every other class
    derives from Exception. *)
Inductive exn : Type :=
| TestFailed (message : string)
| TestNotApplicable (message : string)
| CannotAccess (address : Z)
| Exception (message : string)
| RuntimeError (message : string)
| OSError
| AttributeError
| IndexError
| ValueError
| KeyError
| AssertionError
| TIMEOUT
| EOF
| KeyboardInterrupt
| SystemExit (code : Z).

(** [isinstance(e, Exception)] *)
Definition is_Exception (e : exn) : bool :=
  match e with
  | KeyboardInterrupt | SystemExit _ => false
  | _ => true
  end.

(** [isinstance(e, TestFailed)] *)
Definition is_TestFailed (e : exn) : bool :=
  match e with TestFailed _ => true | _ => false end.

(** [isinstance(e, TestNotApplicable)] *)
Definition is_TestNotApplicable (e : exn) : bool :=
  match e with TestNotApplicable _ => true | _ => false end.

Inductive result (A : Type) : Type :=
| Ok (a : A)
| Raise (e : exn).
Arguments Ok {A} a.
Arguments Raise {A} e.

(** ** A state-and-exception monad for the stateful code *)

Definition M (S A : Type) : Type := S -> S * result A.

Definition ret {S A} (a : A) : M S A := fun s => (s, Ok a).
Definition raise {S A} (e : exn) : M S A := fun s => (s, Raise e).
Definition bind {S A B} (m : M S A) (k : A -> M S B) : M S B :=
  fun s => match m s with
           | (s', Ok a) => k a s'
           | (s', Raise e) => (s', Raise e)
           end.
Definition get {S} : M S S := fun s => (s, Ok s).
Definition modify {S} (f : S -> S) : M S unit := fun s => (f s, Ok tt).
Definition lift {S A} (r : result A) : M S A := fun s => (s, r).

Declare Scope py_scope.
Delimit Scope py_scope with py.
Notation "x <- c ;; k" := (bind c (fun x => k))
  (at level 100, c at next level, right associativity) : py_scope.
Notation "c ;; k" := (bind c (fun _ => k))
  (at level 100, right associativity) : py_scope.
Local Open Scope py_scope.

(** [try: body except <any> as e: handler e] *)
Definition try_except {S A} (body : M S A) (handler : exn -> M S A) : M S A :=
  fun s => match body s with
           | (s', Ok a) => (s', Ok a)
           | (s', Raise e) => handler e s'
           end.

(** [try: body finally: fin].  The finally block runs however the body
    leaves; when it raises, its exception replaces the body's outcome. *)
Definition try_finally {S A} (body : M S A) (fin : M S unit) : M S A :=
  fun s => match body s with
           | (s', r) =>
               match fin s' with
               | (s'', Ok _) => (s'', r)
               | (s'', Raise e) => (s'', Raise e)
               end
           end.

(** [for x in l: body x] *)
Fixpoint for_each {S A} (l : list A) (body : A -> M S unit) : M S unit :=
  match l with
  | [] => ret tt
  | x :: l' => body x ;; for_each l' body
  end.

(** ** The test runner: [BaseTest], [run_tests], [print_results] *)

(** An execution unit of the target. *)
Record Hart : Type := { hart_id : nat; xlen : Z }.

#[global] Instance Hart_eq_dec : EqDecision Hart.
Proof. solve_decision. Defined.

(** What a test does while [sys.stdout] is redirected to its log file: the
    calls on its collaborators and the text it prints. *)
Inductive event : Type :=
| CallEarlyApplicable
| CallTargetCompile (h : Hart) (args : list string)
| CallTargetCreate
| CallTargetServer
| CallSetup
| CallTest
| CallPostMortem
| CallClassTeardown
| PrintHeader (title : string)
| PrintLog (path : string)
| PrintMessage (message : string)
| PrintExc
| PrintExn (e : exn)
| WriteTest (name : string)
| WriteTarget (type_name : string)
| WriteResult (r : pyval)
| WriteTimeElapsed.

(** An attribute of a Python object: removed by [del], or bound to [None]
    or to an object.  The server and the target process are identified by
    the name of their log file. *)
Inductive attr : Type :=
| Deleted
| Bound (v : option string).

(** The instance attributes of a [BaseTest]. *)
Record instance : Type := {
  hart : Hart;
  server : attr;
  target_process : attr;
  binary : option string;
  logs : list string;
}.

(** The state a test runs in: the class attribute [BaseTest.compiled],
    shared by every instance, the events so far, and the instance. *)
Record world : Type := {
  compiled : gmap (list string) string;
  history : list event;
  self : instance;
}.

(** What a test class defines.  The overridable methods are oracles on the
    events so far; the work a subclass adds to [classSetup] runs inside the
    same [try] block of [run] and is part of [setup] here. *)
Record definition : Type := {
  compile_args : option (list string);
  early_applicable : list event -> result pyval;
  setup : list event -> result unit;
  test : list event -> result pyval;
  postMortem : list event -> result unit;
}.

(** The target collaborator. *)
Record target : Type := {
  type_name : string;
  harts : list Hart;
  target_compile : Hart -> list string -> list event -> result string;
  target_create : list event -> result (option string);
  target_server : list event -> result string;
}.

Module BaseTest.

Definition set_compiled (c : gmap (list string) string) (w : world) : world :=
  {| compiled := c; history := history w; self := self w |}.
Definition set_self (i : instance) (w : world) : world :=
  {| compiled := compiled w; history := history w; self := i |}.
Definition record (ev : event) (w : world) : world :=
  {| compiled := compiled w; history := history w ++ [ev]; self := self w |}.

Definition set_server (v : attr) (i : instance) : instance :=
  {| hart := hart i; server := v; target_process := target_process i;
     binary := binary i; logs := logs i |}.
Definition set_target_process (v : attr) (i : instance) : instance :=
  {| hart := hart i; server := server i; target_process := v;
     binary := binary i; logs := logs i |}.
Definition set_binary (v : option string) (i : instance) : instance :=
  {| hart := hart i; server := server i; target_process := target_process i;
     binary := v; logs := logs i |}.
Definition append_log (l : string) (i : instance) : instance :=
  {| hart := hart i; server := server i; target_process := target_process i;
     binary := binary i; logs := logs i ++ [l] |}.

(** Print or write something: the event joins the history. *)
Definition emit (ev : event) : M world unit := modify (record ev).

(** Call a collaborator: it answers from the events so far, and the call
    joins the history. *)
Definition call {A} (ev : event) (oracle : list event -> result A) : M world A :=
  fun w => (record ev w, oracle (history w)).

Definition on_self (f : instance -> instance) : M world unit :=
  modify (fun w => set_self (f (self w)) w).

(** [BaseTest.__init__]: the hart given, or else the last hart of the
    target ([random.choice] is overridden at once; both raise IndexError on
    an empty list). *)
Definition __init__ (tg : target) (h : option Hart) : M world unit :=
  match h with
  | Some h' =>
      modify (set_self {| hart := h'; server := Bound None;
                          target_process := Bound None; binary := None; logs := [] |})
  | None =>
      match last (harts tg) with
      | Some h' =>
          modify (set_self {| hart := h'; server := Bound None;
                              target_process := Bound None; binary := None; logs := [] |})
      | None => raise IndexError
      end
  end.

(** Truth value of [getattr(self, 'compile_args', None)]: a tuple is true
    when it is not empty. *)
Definition args_truthy (compile_args : option (list string)) : bool :=
  match compile_args with
  | Some (_ :: _) => true
  | _ => false
  end.

(** [BaseTest.compiled.get(compile_args)] *)
Definition compiled_get (c : gmap (list string) string)
    (compile_args : option (list string)) : option string :=
  match compile_args with
  | Some a => c !! a
  | None => None
  end.

Definition compile (tg : target) (d : definition) : M world unit :=
  (if args_truthy (compile_args d) then
     let a := default [] (compile_args d) in
     w <- get ;;
     if decide (compiled w !! a = None) then
       b <- call (CallTargetCompile (hart (self w)) a)
              (target_compile tg (hart (self w)) a) ;;
       modify (fun w => set_compiled (<[a := b]> (compiled w)) w)
     else ret tt
   else ret tt) ;;
  w <- get ;;
  on_self (set_binary (compiled_get (compiled w) (compile_args d))).

(** [print_log(path)]: a header and the lines of the file.  The paths a
    test keeps in [self.logs] are those of logs that exist, and reading them
    raises nothing. *)
Definition print_log (path : string) : M world unit :=
  emit (PrintHeader path) ;; emit (PrintLog path).

Definition print_logs : M world unit :=
  w <- get ;; for_each (logs (self w)) print_log.

Definition classSetup (tg : target) (d : definition) : M world unit :=
  compile tg d ;;
  tp <- call CallTargetCreate (target_create tg) ;;
  on_self (set_target_process (Bound tp)) ;;
  (match tp with
   | Some logname => on_self (append_log logname)
   | None => ret tt
   end) ;;
  try_except
    (s <- call CallTargetServer (target_server tg) ;;
     on_self (set_server (Bound (Some s))) ;;
     on_self (append_log s))
    (fun e => if is_Exception e then print_logs ;; raise e else raise e).

Definition classTeardown : M world unit :=
  emit CallClassTeardown ;;
  on_self (set_server Deleted) ;;
  on_self (set_target_process Deleted).

(** The [try] block of [run]. *)
Definition try_block (tg : target) (d : definition) : M world pyval :=
  classSetup tg d ;;
  call CallSetup (setup d) ;;
  call CallTest (test d).

(** The handler of [except Exception as e] in [run]; it ends in
    [return result]. *)
Definition handle_Exception (d : definition) (e : exn) : M world pyval :=
  let result := if is_TestFailed e then PyStr "fail" else PyStr "exception" in
  (match e with
   | TestFailed message => emit (PrintHeader "Message") ;; emit (PrintMessage message)
   | _ => ret tt
   end) ;;
  emit (PrintHeader "Traceback") ;;
  emit PrintExc ;;
  try_except
    (call CallPostMortem (postMortem d))
    (fun e' => if is_Exception e'
               then emit (PrintHeader "postMortem Exception") ;;
                    emit (PrintExn e') ;; emit PrintExc
               else raise e') ;;
  ret result.

(** The [except] clauses of [run], tried in order.  The value is
    [inl result] when the clause ends in [return result], and [inr result]
    when control goes on after the [try] statement. *)
Definition except_block (d : definition) (e : exn) : M world (pyval + pyval) :=
  if is_TestNotApplicable e then ret (inr (PyStr "not_applicable"))
  else if is_Exception e then
    result <- handle_Exception d e ;; ret (inl result)
  else raise e.

(** The [finally] clause of [run]. *)
Definition finally_block : M world unit :=
  print_logs ;;
  emit (PrintHeader "End of logs") ;;
  classTeardown.

(** [BaseTest.run] *)
Definition run (tg : target) (d : definition) : M world pyval :=
  ea <- call CallEarlyApplicable (early_applicable d) ;;
  if negb (truthy ea) then ret (PyStr "not_applicable") else
  r <- try_finally
         (try_except (result <- try_block tg d ;; ret (inr result)) (except_block d))
         finally_block ;;
  match r with
  | inl result => ret result
  | inr result => ret (if truthy result then result else PyStr "pass")
  end.

End BaseTest.

(** What the runner prints on the real standard output. *)
Inductive console_line : Type :=
| Starting (name log_name : string)
| Finished (name : string) (r : pyval)
| EchoLog (log_name : string)
| RanTests (count : nat)
| Returned (n : nat) (key : pyval)
| BadTest (name log_name : string).

(** The state of a suite: the console, and the state the tests run in. *)
Record suite : Type := {
  console : list console_line;
  tests : world;
}.

(** The options of the command line that the runner reads. *)
Record options : Type := {
  logs_dir : string;
  fail_fast : bool;
  print_failures : bool;
}.

Definition good_results : gset pyval := {[ PyStr "pass"; PyStr "not_applicable" ]}.

Section Runner.

(** [time.strftime("%Y%m%d-%H%M%S")], asked after [n] console lines. *)
Variable strftime : nat -> string.

Definition print (l : console_line) : M suite unit :=
  modify (fun s => {| console := console s ++ [l]; tests := tests s |}).

(** Run a step of a test: [sys.stdout] is the log file, so the step
    changes [tests] and leaves the console alone. *)
Definition in_test {A} (m : M world A) : M suite A :=
  fun s => match m (tests s) with
           | (w, r) => ({| console := console s; tests := w |}, r)
           end.

Definition log_name (parsed : options) (tg : target) (name : string) : M suite string :=
  s <- get ;;
  ret (logs_dir parsed +:+ "/" +:+ strftime (length (console s)) +:+ "-" +:+
       type_name tg +:+ "-" +:+ name +:+ ".log").

(** [results.setdefault(result, []).append((name, log_name))] *)
Definition setdefault_append (result : pyval) (entry : string * string)
    (results : gmap pyval (list (string * string))) : gmap pyval (list (string * string)) :=
  <[result := default [] (results !! result) ++ [entry]]> results.

(** The loop of [run_tests], with its locals [results] and [count]. *)
Fixpoint run_tests_loop (parsed : options) (tg : target)
    (todo : list (string * definition * option Hart))
    (results : gmap pyval (list (string * string))) (count : nat)
    : M suite (gmap pyval (list (string * string)) * nat) :=
  match todo with
  | [] => ret (results, count)
  | (name, d, h) :: todo' =>
      log <- log_name parsed tg name ;;
      print (Starting name log) ;;
      in_test (BaseTest.__init__ tg h) ;;
      in_test (BaseTest.emit (WriteTest name)) ;;
      in_test (BaseTest.emit (WriteTarget (type_name tg))) ;;
      result <- try_finally
                  (result <- in_test (BaseTest.run tg d) ;;
                   in_test (BaseTest.emit (WriteResult result)) ;;
                   ret result)
                  (in_test (BaseTest.emit WriteTimeElapsed)) ;;
      print (Finished name result) ;;
      (if decide (result ∉ good_results) then
         if print_failures parsed then print (EchoLog log) else ret tt
       else ret tt) ;;
      let results := setdefault_append result (name, log) results in
      let count := S count in
      if decide (result ∉ good_results) then
        if fail_fast parsed then ret (results, count)
        else run_tests_loop parsed tg todo' results count
      else run_tests_loop parsed tg todo' results count
  end.

Definition run_tests (parsed : options) (tg : target)
    (todo : list (string * definition * option Hart))
    : M suite (gmap pyval (list (string * string)) * nat) :=
  run_tests_loop parsed tg todo ∅ 0.

(** [print_results]: the exit status. *)
Fixpoint print_results_loop (items : list (pyval * list (string * string)))
    (result : Z) : M suite Z :=
  match items with
  | [] => ret result
  | (key, value) :: items' =>
      print (Returned (length value) key) ;;
      if decide (key ∉ good_results) then
        for_each value (fun '(name, log) => print (BadTest name log)) ;;
        print_results_loop items' 1%Z
      else print_results_loop items' result
  end.

Definition print_results (results : gmap pyval (list (string * string))) : M suite Z :=
  print_results_loop (map_to_list results) 0%Z.

(** [run_all_tests], from the list [todo] on: how the list is gathered
    from the module of tests is left to the caller. *)
Definition run_all_tests (parsed : options) (tg : target)
    (todo : list (string * definition * option Hart)) : M suite Z :=
  rc <- run_tests parsed tg todo ;;
  print (RanTests (snd rc)) ;;
  print_results (fst rc).

End Runner.

(** ** Python string operations and the regular expressions of the harness *)

Module Str.

Fixpoint drop (n : nat) (s : string) : string :=
  match n, s with
  | S n', String _ s' => drop n' s'
  | _, _ => s
  end.

(** [s.lstrip()], [s.rstrip()], [s.strip()]: the white space of Python is
    the six characters of [Ascii.is_space]. *)
Fixpoint lstrip (s : string) : string :=
  match s with
  | String c s' => if Ascii.is_space c then lstrip s' else s
  | "" => ""
  end.
Definition rstrip (s : string) : string := String.rev (lstrip (String.rev s)).
Definition strip (s : string) : string := rstrip (lstrip s).

Definition startswith (p s : string) : bool := String.prefix p s.
Definition endswith (p s : string) : bool := String.prefix (String.rev p) (String.rev s).

(** [text[1:-1]] *)
Definition inner (text : string) : string :=
  String.rev (drop 1 (String.rev (drop 1 text))).

(** The longest prefix of [s] made of characters in the class [p], and
    what follows it. *)
Fixpoint span (p : Ascii.ascii -> bool) (s : string) : string * string :=
  match s with
  | String c s' =>
      if p c then let '(a, b) := span p s' in (String c a, b) else ("", s)
  | "" => ("", "")
  end.

(** [s.split(sep)] for a separator that is not empty.  [cur] holds the
    current piece, reversed; [skip] counts the characters of a separator
    just found that are still to be passed. *)
Fixpoint split_go (sep : string) (skip : nat) (cur : string) (s : string) : list string :=
  match s with
  | "" => [String.rev cur]
  | String c s' =>
      match skip with
      | S k => split_go sep k cur s'
      | O =>
          if String.prefix sep s
          then String.rev cur :: split_go sep (String.length sep - 1) "" s'
          else split_go sep 0 (String c cur) s'
      end
  end.
Definition split (sep s : string) : list string := split_go sep 0 "" s.

(** [s.splitlines()]: lines end at "\n", "\r" or "\r\n", and a final line
    end opens no further line. *)
Fixpoint splitlines_go (cur : string) (s : string) : list string :=
  match s with
  | "" => if decide (cur = "") then [] else [String.rev cur]
  | String c s' =>
      if decide (c = "010"%char) then String.rev cur :: splitlines_go "" s'
      else if decide (c = "013"%char) then
        String.rev cur ::
          match s' with
          | String c' s'' =>
              if decide (c' = "010"%char) then splitlines_go "" s''
              else splitlines_go "" s'
          | "" => []
          end
      else splitlines_go (String c cur) s'
  end.
Definition splitlines (s : string) : list string := splitlines_go "" s.

(** [re.search] for a pattern that is a literal followed by a tail: the
    match at the leftmost position where the literal is found and the
    tail matches what follows it. *)
Fixpoint search {A} (lit : string) (tail : string -> option A) (s : string) : option A :=
  match (if String.prefix lit s then tail (drop (String.length lit) s) else None) with
  | Some r => Some r
  | None =>
      match s with
      | "" => None
      | String _ s' => search lit tail s'
      end
  end.

(** [sub in s] *)
Definition contains (sub s : string) : bool :=
  bool_decide (is_Some (search sub (fun _ => Some tt) s)).

Definition is_digit (c : Ascii.ascii) : bool := bool_decide (is_Some (Ascii.is_nat c)).

(** The class [[0-9a-f]]. *)
Definition is_lower_hex (c : Ascii.ascii) : bool :=
  is_digit c ||
  match c with
  | "a" | "b" | "c" | "d" | "e" | "f" => true
  | _ => false
  end%char.

(** The value of a digit in a base up to 16, in either case. *)
Definition digit_value (c : Ascii.ascii) : option Z :=
  match c with
  | "a" | "A" => Some 10
  | "b" | "B" => Some 11
  | "c" | "C" => Some 12
  | "d" | "D" => Some 13
  | "e" | "E" => Some 14
  | "f" | "F" => Some 15
  | _ => Z.of_nat <$> Ascii.is_nat c
  end%char%Z.

(** The number written by the digits [s] in base [base], after [acc];
    [None] when a character is no digit of that base. *)
Fixpoint digits_value (base : Z) (acc : Z) (s : string) : option Z :=
  match s with
  | "" => Some acc
  | String c s' =>
      match digit_value c with
      | Some d => if (d <? base)%Z then digits_value base (base * acc + d) s' else None
      | None => None
      end
  end.

Definition number (base : Z) (s : string) : option Z :=
  if decide (s = "") then None else digits_value base 0 s.

(** An unsigned literal read with base 0, as Python 2 does: a prefix
    [0x], [0o] or [0b], a leading [0] for octal, decimal otherwise. *)
Definition literal (s : string) : option Z :=
  match s with
  | String "0" (String c ds) =>
      if decide (c = "x" ∨ c = "X")%char then number 16 ds
      else if decide (c = "o" ∨ c = "O")%char then number 8 ds
      else if decide (c = "b" ∨ c = "B")%char then number 2 ds
      else number 8 (String c ds)
  | _ => number 10 s
  end.

(** [int(text, 0)]: white space around the literal is dropped and a sign
    may come first; ValueError otherwise. *)
Definition int0 (text : string) : result Z :=
  let t := strip text in
  let v := match t with
           | String "-" t' => Z.opp <$> literal t'
           | String "+" t' => literal t'
           | _ => literal t
           end in
  match v with
  | Some n => Ok n
  | None => Raise ValueError
  end.

(** [int(text)] on the digits a [(\d+)] group has matched. *)
Definition int_digits (ds : string) : Z := default 0%Z (digits_value 10 0 ds).

(** The tail [(\d+)]: at least one digit, as many as there are. *)
Definition digits_group (rest : string) : option string :=
  let '(ds, _) := span is_digit rest in
  if decide (ds = "") then None else Some ds.

End Str.

(** ** [Gdb]: one object driving one or more gdb sessions *)

(** A gdb session (a pexpect child), named by its position among the
    children spawned by [Gdb.__init__]. *)
Definition child : Type := nat.

(** The namedtuple [Thread]; the groups for [target_id] and [name] are
    [None] when the line reads "Remote target". *)
Record Thread : Type := {
  id : string;
  description : string;
  target_id : option string;
  name : option string;
  frame : string;
}.

(** What the harness does to its children. *)
Inductive io : Type :=
| Sendline (c : child) (line : string)
| Send (c : child) (text : string)
| Expect (c : child) (pattern : string) (timeout : Z).

#[global] Instance io_eq_dec : EqDecision io.
Proof. solve_decision. Defined.

(** The value of [Gdb.p]: an integer, a string, or a list of such. *)
#[warnings="-register-all"]
Inductive parsed : Type :=
| PInt (n : Z)
| PString (s : string)
| PList (l : list parsed).

Module Gdb.

Record t : Type := {
  ports : list Z;
  timeout : Z;
  binary : option string;
  stack : list child;
  harts : gmap nat (child * Thread);
  children : list child;
  active_child : child;
  transcript : list io;
}.

Definition set_active_child (c : child) (g : t) : t :=
  {| ports := ports g; timeout := timeout g; binary := binary g; stack := stack g;
     harts := harts g; children := children g; active_child := c;
     transcript := transcript g |}.
Definition set_stack (st : list child) (g : t) : t :=
  {| ports := ports g; timeout := timeout g; binary := binary g; stack := st;
     harts := harts g; children := children g; active_child := active_child g;
     transcript := transcript g |}.
Definition set_harts (h : gmap nat (child * Thread)) (g : t) : t :=
  {| ports := ports g; timeout := timeout g; binary := binary g; stack := stack g;
     harts := h; children := children g; active_child := active_child g;
     transcript := transcript g |}.
Definition log_io (ev : io) (g : t) : t :=
  {| ports := ports g; timeout := timeout g; binary := binary g; stack := stack g;
     harts := harts g; children := children g; active_child := active_child g;
     transcript := transcript g ++ [ev] |}.

Section Sessions.

(** The children: what a call on a child yields after the calls made so
    far.  For [Expect] it is the text left in [child.before], or the
    TIMEOUT or EOF that pexpect raises. *)
Variable pexpect : list io -> io -> result string.

Definition interact (ev : io) : M t string :=
  fun g => (log_io ev g, pexpect (transcript g) ev).

Definition sendline (c : child) (line : string) : M t unit :=
  interact (Sendline c line) ;; ret tt.
Definition send (c : child) (text : string) : M t unit :=
  interact (Send c text) ;; ret tt.
(** [child.expect(pattern, timeout)]; the default timeout is [-1].  The
    value is [child.before]. *)
Definition expect (c : child) (pattern : string) (timeout : Z) : M t string :=
  interact (Expect c pattern timeout).

Definition select_child (c : child) : M t unit := modify (set_active_child c).

(** [self.stack.append({'active_child': self.active_child})] *)
Definition push_state : M t unit :=
  modify (fun g => set_stack (stack g ++ [active_child g]) g).

(** [state = self.stack.pop(); self.active_child = state['active_child']] *)
Definition pop_state : M t unit :=
  g <- get ;;
  match last (stack g) with
  | Some c =>
      modify (set_stack (removelast (stack g))) ;;
      modify (set_active_child c)
  | None => raise IndexError
  end.

(** [with PrivateState(self): body] *)
Definition with_PrivateState {A} (body : M t A) : M t A :=
  push_state ;; try_finally body pop_state.

Definition prompt : string := "\(gdb\)".
Definition newline : string := String "010" "".
Definition quote : string := String "034" "".

Definition wait : M t unit :=
  g <- get ;; expect (active_child g) prompt (-1) ;; ret tt.

Definition command (cmd : string) (timeout : Z) : M t string :=
  g <- get ;;
  sendline (active_child g) cmd ;;
  expect (active_child g) newline timeout ;;
  before <- expect (active_child g) prompt timeout ;;
  ret (Str.strip before).

Definition global_command (cmd : string) : M t unit :=
  with_PrivateState
    (g <- get ;;
     for_each (children g) (fun c => select_child c ;; command cmd 6000 ;; ret tt)).

Definition c_all : M t unit :=
  with_PrivateState
    (g <- get ;;
     for_each (children g)
       (fun c => sendline c "c" ;; expect c "Continuing" (-1) ;; ret tt) ;;
     for_each (children g) (fun c => expect c prompt (-1) ;; ret tt)).

Definition interrupt : M t string :=
  g <- get ;;
  send (active_child g) (String "003" "") ;;
  before <- expect (active_child g) prompt 6000 ;;
  ret (Str.strip before).

(** The group of the search in [p] and [p_raw]: the words Cannot access
    memory at address, then 0x and at least one of the digits 0-9a-f. *)
Definition search_cannot_access (output : string) : option string :=
  Str.search "Cannot access memory at address 0x"
    (fun rest =>
       let '(ds, _) := Str.span Str.is_lower_hex rest in
       if decide (ds = "") then None else Some ("0x" +:+ ds))
    output.

Definition x (address : string) (size : string) : M t Z :=
  output <- command ("x/" +:+ size +:+ " " +:+ address) 6000 ;;
  match Str.split ":" output !! 1%nat with
  | Some field => lift (Str.int0 (Str.strip field))
  | None => raise IndexError
  end.

Definition p_raw (obj : string) : M t string :=
  output <- command ("p " +:+ obj) 6000 ;;
  match search_cannot_access output with
  | Some group =>
      address <- lift (Str.int0 group) ;;
      raise (CannotAccess address)
  | None => ret (Str.strip (default "" (last (Str.split "=" output))))
  end.

(** [[f(t) for t in l]]: the first exception ends the comprehension.
    [None] when [f] ran out of fuel. *)
Fixpoint comprehension {A B} (f : A -> option (result B)) (l : list A)
    : option (result (list B)) :=
  match l with
  | [] => Some (Ok [])
  | a :: l' =>
      match f a with
      | None => None
      | Some (Raise e) => Some (Raise e)
      | Some (Ok b) =>
          match comprehension f l' with
          | None => None
          | Some (Raise e) => Some (Raise e)
          | Some (Ok bs) => Some (Ok (b :: bs))
          end
      end
  end.

(** [parse_string], recursing at most [fuel] deep. *)
Fixpoint parse_string_fuel (fuel : nat) (text : string) : option (result parsed) :=
  match fuel with
  | O => None
  | S fuel' =>
      let text := Str.strip text in
      if Str.startswith "{" text && Str.endswith "}" text then
        match comprehension (parse_string_fuel fuel')
                (Str.split ", " (Str.inner text)) with
        | None => None
        | Some (Raise e) => Some (Raise e)
        | Some (Ok l) => Some (Ok (PList l))
        end
      else if Str.startswith quote text && Str.endswith quote text then
        Some (Ok (PString (Str.inner text)))
      else
        match Str.int0 text with
        | Ok n => Some (Ok (PInt n))
        | Raise e => Some (Raise e)
        end
  end.

(** [parse_string]: every recursive call is on a shorter text, so the
    length of the text bounds the depth. *)
Definition parse_string (text : string) : result parsed :=
  match parse_string_fuel (S (String.length text)) text with
  | Some r => r
  | None => Raise (RuntimeError "maximum recursion depth exceeded")
  end.

Definition p (obj : string) (fmt : string) : M t parsed :=
  output <- command ("p" +:+ fmt +:+ " " +:+ obj) 6000 ;;
  match search_cannot_access output with
  | Some group =>
      address <- lift (Str.int0 group) ;;
      raise (CannotAccess address)
  | None => lift (parse_string (default "" (last (Str.split "=" output))))
  end.

(** The groups of the pattern that [threads] matches at the start of a
    line: white space and stars; the digits of [id]; white space; then
    either the words Remote target, or Thread, a space, the digits of
    [target_id], white space, an opening parenthesis with Name, a colon
    and a space, and the characters of [name] up to a closing
    parenthesis; white space; and the rest of the line as [frame].
    Every repetition is followed by something its own class excludes, or by
    a rest that takes anything, so the greedy choice is the match found. *)
Definition match_thread (line : string) : option Thread :=
  let '(_, r1) := Str.span (fun c => Ascii.is_space c || bool_decide (c = "*"%char)) line in
  let '(num, r2) := Str.span Str.is_digit r1 in
  if decide (num = "") then None else
  let '(_, r3) := Str.span Ascii.is_space r2 in
  if String.prefix "Remote target" r3 then
    let '(_, rest) := Str.span Ascii.is_space (Str.drop 13 r3) in
    Some {| id := num; description := "Remote target"; target_id := None;
            name := None; frame := rest |}
  else if String.prefix "Thread " r3 then
    let '(tid, r4) := Str.span Str.is_digit (Str.drop 7 r3) in
    if decide (tid = "") then None else
    let '(ws, r5) := Str.span Ascii.is_space r4 in
    if String.prefix "(Name: " r5 then
      let '(nm, r6) := Str.span (fun c => bool_decide (c ≠ ")"%char)) (Str.drop 7 r5) in
      if decide (nm = "") then None else
      let '(_, rest) := Str.span Ascii.is_space r6 in
      Some {| id := num;
              description := "Thread " +:+ tid +:+ ws +:+ "(Name: " +:+ nm;
              target_id := Some tid; name := Some nm; frame := rest |}
    else None
  else None.

Definition threads : M t (list Thread) :=
  output <- command "info threads" 6000 ;;
  let threads := omap match_thread (Str.splitlines output) in
  if decide (threads = []) then raise AssertionError else ret threads.

(** The search for Hart, a space and digits in [t.name], and the integer
    those digits write, for a thread that has a name. *)
Definition search_hart (t : Thread) : option nat :=
  nm ← name t;
  ds ← Str.search "Hart " Str.digits_group nm;
  Some (Z.to_nat (Str.int_digits ds)).

(** The identifier [connect] gives to a thread, from the identifiers
    given so far: the one in its name, or else [max(self.harts) + 1], or
    [0] when there is none yet. *)
Definition hartid (harts : gmap nat (child * Thread)) (t : Thread) : nat :=
  match search_hart t with
  | Some n => n
  | None =>
      if decide (harts = ∅) then 0%nat
      else S (max_list (elements (dom harts)))
  end.

(** The loop of [connect] over the threads of one child. *)
Definition assign_harts (c : child) (ts : list Thread) : M t unit :=
  for_each ts
    (fun t => modify (fun g => set_harts (<[hartid (harts g) t := (c, t)]> (harts g)) g)).

Definition connect : M t unit :=
  g <- get ;;
  for_each (zip (ports g) (children g))
    (fun '(port, c) =>
       select_child c ;;
       wait ;;
       command "set confirm off" 6000 ;;
       command "set width 0" 6000 ;;
       command "set height 0" 6000 ;;
       command "set print entry-values no" 6000 ;;
       command ("set remotetimeout " +:+ pretty (timeout g)) 6000 ;;
       command ("target extended-remote localhost:" +:+ pretty port) 6000 ;;
       (match binary g with
        | Some b => if decide (b = "") then ret tt
                    else command ("file " +:+ b) 6000 ;; ret tt
        | None => ret tt
        end) ;;
       ts <- threads ;;
       assign_harts c ts).

Definition select_hart (h : Hart) : M t unit :=
  g <- get ;;
  match harts g !! hart_id h with
  | Some (c, thread) =>
      select_child c ;;
      output <- command ("thread " +:+ id thread) 6000 ;;
      if Str.contains "Unknown" output then raise AssertionError else ret tt
  | None => raise KeyError
  end.

End Sessions.

(** [Gdb.__init__]: one child for every port; the first one is active. *)
Definition __init__ (ports : list Z) (timeout : Z) (binary : option string) : result t :=
  if decide (ports = []) then Raise AssertionError
  else Ok {| ports := ports; timeout := timeout; binary := binary; stack := [];
             harts := ∅; children := seq 0 (length ports); active_child := 0%nat;
             transcript := [] |}.

End Gdb.

(** ** Process handles: [Spike], [VcsSim] and [Openocd] *)

(** A spawned process as its [Popen] object sees it: running; exited but
    not yet waited for; or waited for, its [returncode] set and its process
    identifier released. *)
Inductive proc : Type :=
| Running
| Zombie
| Reaped.

(** The attribute [self.process] of a handle: never assigned, [None], or a
    [Popen] object. *)
Inductive process_attr : Type :=
| Unset
| IsNone
| Popen (st : proc).

(** [Popen.kill()]: the signal reaches a process that is running or not yet
    waited for; [os.kill] raises OSError when the process is gone.  There is
    no such method on [None], and no object without the attribute. *)
Definition kill (p : process_attr) : process_attr * result unit :=
  match p with
  | Popen Running => (Popen Zombie, Ok tt)
  | Popen Zombie => (Popen Zombie, Ok tt)
  | Popen Reaped => (Popen Reaped, Raise OSError)
  | _ => (p, Raise AttributeError)
  end.

(** [Popen.wait()] once the process has been killed or has exited: it
    collects the exit status, or finds [returncode] already set. *)
Definition wait (p : process_attr) : process_attr * result unit :=
  match p with
  | Popen _ => (Popen Reaped, Ok tt)
  | _ => (p, Raise AttributeError)
  end.

Module Spike.

Record t : Type := {
  process : process_attr;
  port : option Z;
  reads : nat;
  slept : nat;
  printed : list string;
}.

Definition set_process (p : process_attr) (s : t) : t :=
  {| process := p; port := port s; reads := reads s; slept := slept s;
     printed := printed s |}.
Definition set_port (v : option Z) (s : t) : t :=
  {| process := process s; port := v; reads := reads s; slept := slept s;
     printed := printed s |}.
Definition sleep (s : t) : t :=
  {| process := process s; port := port s; reads := reads s; slept := S (slept s);
     printed := printed s |}.

(** What [__init__] meets outside the harness: whether building the
    command line and compiling the program went through, what
    [subprocess.Popen] gave, and what the log file holds at its n-th
    reading. *)
Record spawn : Type := {
  prepare : result unit;
  popen : result proc;
  read_log : nat -> string;
}.

(** [open(self.logname).read()] *)
Definition read (env : spawn) : M t string :=
  fun s => ({| process := process s; port := port s; reads := S (reads s);
               slept := slept s; printed := printed s |},
            Ok (read_log env (reads s))).

(** [print_log(self.logname)]: the log, as it stands, goes to the
    standard output. *)
Definition print_log (env : spawn) : M t unit :=
  text <- read env ;;
  modify (fun s => {| process := process s; port := port s; reads := reads s;
                      slept := slept s; printed := printed s ++ [text] |}).

(** The group of the search for the announcement: the words up to port, a
    space, digits, and one more character that is not a line end.  When
    the digits run to the end of the text or of the line, the last digit is
    given up to that character. *)
Definition search_port (text : string) : option string :=
  Str.search "Listening for remote bitbang connection on port "
    (fun rest =>
       let '(ds, after) := Str.span Str.is_digit rest in
       let short := String.rev (Str.drop 1 (String.rev ds)) in
       match after with
       | String c _ =>
           if decide (c = "010"%char) then
             if decide (short = "") then None else Some short
           else if decide (ds = "") then None else Some ds
       | "" => if decide (short = "") then None else Some short
       end)
    text.

(** [for _ in range(n)]: read the log, and leave the loop on a match. *)
Fixpoint poll (env : spawn) (n : nat) : M t unit :=
  match n with
  | O => ret tt
  | S n' =>
      text <- read env ;;
      match search_port text with
      | Some ds => modify (set_port (Some (Str.int_digits ds)))
      | None => modify sleep ;; poll env n'
      end
  end.

(** [not self.port] *)
Definition no_port (s : t) : bool :=
  match port s with
  | Some n => (n =? 0)%Z
  | None => true
  end.

Definition __init__ (env : spawn) (with_jtag_gdb : bool) : M t unit :=
  modify (set_process IsNone) ;;
  lift (prepare env) ;;
  p <- lift (popen env) ;;
  modify (set_process (Popen p)) ;;
  if with_jtag_gdb then
    modify (set_port None) ;;
    poll env 30 ;;
    s <- get ;;
    if no_port s then
      print_log env ;;
      raise (Exception "Didn't get spike message about bitbang connection")
    else ret tt
  else ret tt.

Definition on_process (f : process_attr -> process_attr * result unit) : M t unit :=
  fun s => let '(p, r) := f (process s) in (set_process p s, r).

Definition __del__ : M t unit :=
  s <- get ;;
  match process s with
  | Unset => raise AttributeError
  | IsNone => ret tt
  | Popen _ =>
      try_except
        (on_process kill ;; on_process wait)
        (fun e => match e with OSError => ret tt | _ => raise e end)
  end.

(** The object before [__init__] has run. *)
Definition blank : t :=
  {| process := Unset; port := None; reads := 0; slept := 0; printed := [] |}.

End Spike.

Module VcsSim.

Record t : Type := {
  process : process_attr;
  port : option Z;
  slept : nat;
}.

Definition set_process (p : process_attr) (s : t) : t :=
  {| process := p; port := port s; slept := slept s |}.
Definition set_port (v : option Z) (s : t) : t :=
  {| process := process s; port := v; slept := slept s |}.
Definition sleep (s : t) : t :=
  {| process := process s; port := port s; slept := S (slept s) |}.

(** What [__init__] meets outside the harness: what [subprocess.Popen]
    gave, and at the n-th turn of the loop what [self.process.poll()] and
    [listenfile.readline()] return. *)
Record spawn : Type := {
  popen : result proc;
  poll_at : nat -> option Z;
  readline_at : nat -> string;
}.

(** The group of the match of a whole line: Listening on port, a space
    and digits, up to the end of the line or the line end closing it. *)
Definition match_listening (line : string) : option string :=
  if String.prefix "Listening on port " line then
    let '(ds, after) := Str.span Str.is_digit (Str.drop 18 line) in
    if decide (ds = "") then None
    else if decide (after = "" ∨ after = String "010" "") then Some ds
    else None
  else None.

(** [while not done], from its [i]-th turn; [None] when the loop is
    still running after [fuel] turns. *)
Fixpoint listen (env : spawn) (fuel i : nat) (s : t) : option (t * result unit) :=
  match fuel with
  | O => None
  | S fuel' =>
      match poll_at env i with
      | Some exit_code =>
          Some (s, Raise (RuntimeError "VCS simulator exited early"))
      | None =>
          let line := readline_at env i in
          let s := if decide (line = "") then sleep s else s in
          match match_listening line with
          | Some ds => Some (set_port (Some (Str.int_digits ds)) s, Ok tt)
          | None => listen env fuel' (S i) s
          end
      end
  end.

Definition __init__ (env : spawn) (fuel : nat) (s : t) : option (t * result unit) :=
  match popen env with
  | Raise e => Some (s, Raise e)
  | Ok p => listen env fuel 0 (set_process (Popen p) s)
  end.

Definition on_process (f : process_attr -> process_attr * result unit) : M t unit :=
  fun s => let '(p, r) := f (process s) in (set_process p s, r).

Definition __del__ : M t unit :=
  try_except
    (on_process kill ;; on_process wait)
    (fun e => match e with OSError => ret tt | _ => raise e end).

(** The object before [__init__] has run. *)
Definition blank : t := {| process := Unset; port := None; slept := 0 |}.

End VcsSim.

Module Openocd.

Record t : Type := {
  process : process_attr;
  gdb_ports : list Z;
  timeout : Z;
  slept : nat;
  waiting_message : bool;
  log_printed : bool;
}.

Definition set_process (p : process_attr) (s : t) : t :=
  {| process := p; gdb_ports := gdb_ports s; timeout := timeout s; slept := slept s;
     waiting_message := waiting_message s; log_printed := log_printed s |}.
Definition add_port (n : Z) (s : t) : t :=
  {| process := process s; gdb_ports := gdb_ports s ++ [n]; timeout := timeout s;
     slept := slept s; waiting_message := waiting_message s;
     log_printed := log_printed s |}.
Definition sleep (s : t) : t :=
  {| process := process s; gdb_ports := gdb_ports s; timeout := timeout s;
     slept := S (slept s); waiting_message := waiting_message s;
     log_printed := log_printed s |}.
Definition print_waiting (s : t) : t :=
  {| process := process s; gdb_ports := gdb_ports s; timeout := timeout s;
     slept := slept s; waiting_message := true; log_printed := log_printed s |}.
Definition print_log (s : t) : t :=
  {| process := process s; gdb_ports := gdb_ports s; timeout := timeout s;
     slept := slept s; waiting_message := waiting_message s; log_printed := true |}.

(** What [__init__] meets outside the harness: whether the configuration
    file asked for is missing, what [subprocess.Popen] gave, and at the n-th
    turn of the loop of [start] what [fd.readline()] and [process.poll()]
    return and how many seconds [time.time() - start] counts. *)
Record spawn : Type := {
  config_missing : bool;
  popen : result proc;
  readline_at : nat -> string;
  poll_at : nat -> option Z;
  elapsed_at : nat -> Z;
}.

(** The group of the search for Listening on port, a space, digits, and
    the words for gdb connections. *)
Definition search_gdb_port (line : string) : option string :=
  Str.search "Listening on port "
    (fun rest =>
       let '(ds, after) := Str.span Str.is_digit rest in
       if decide (ds = "") then None
       else if String.prefix " for gdb connections" after then Some ds
       else None)
    line.

(** [while True] in [start], from its [i]-th turn; [None] when the loop is
    still running after [fuel] turns. *)
Fixpoint start_loop (env : spawn) (fuel i : nat) (messaged : bool) (s : t)
    : option (t * result unit) :=
  match fuel with
  | O => None
  | S fuel' =>
      let line := readline_at env i in
      if decide (line = "") then
        match poll_at env i with
        | Some _ => Some (s, Raise (Exception "OpenOCD exited early."))
        | None => start_loop env fuel' (S i) messaged (sleep s)
        end
      else
        let s := match search_gdb_port line with
                 | Some ds => add_port (Str.int_digits ds) s
                 | None => s
                 end in
        if Str.contains "telnet server disabled" line then Some (s, Ok tt)
        else
          let message := negb messaged && (1 <? elapsed_at env i)%Z in
          let s := if message then print_waiting s else s in
          if (timeout s <? elapsed_at env i)%Z then
            Some (s, Raise (Exception "Timed out waiting for OpenOCD to listen for gdb"))
          else start_loop env fuel' (S i) (messaged || message) s
  end.

(** [start]: the process, once the server has said that it listens. *)
Definition start (env : spawn) (fuel : nat) (s : t) : option (t * result proc) :=
  match popen env with
  | Raise e => Some (s, Raise e)
  | Ok p =>
      match start_loop env fuel 0 false s with
      | None => None
      | Some (s', Ok _) => Some (s', Ok p)
      | Some (s', Raise e) =>
          if is_Exception e then Some (print_log s', Raise e) else Some (s', Raise e)
      end
  end.

Definition __init__ (env : spawn) (timeout : Z) (fuel : nat) (s : t)
    : option (t * result unit) :=
  let s := {| process := process s; gdb_ports := gdb_ports s; timeout := timeout;
              slept := slept s; waiting_message := waiting_message s;
              log_printed := log_printed s |} in
  if config_missing env then Some (s, Raise (SystemExit 1))
  else
    let s := {| process := process s; gdb_ports := []; timeout := timeout;
                slept := slept s; waiting_message := waiting_message s;
                log_printed := log_printed s |} in
    match start env fuel s with
    | None => None
    | Some (s', Ok p) => Some (set_process (Popen p) s', Ok tt)
    | Some (s', Raise e) => Some (s', Raise e)
    end.

Definition on_process (f : process_attr -> process_attr * result unit) : M t unit :=
  fun s => let '(p, r) := f (process s) in (set_process p s, r).

Definition __del__ : M t unit :=
  try_except
    (on_process kill ;; on_process wait)
    (fun e => match e with OSError | AttributeError => ret tt | _ => raise e end).

(** The object before [__init__] has run. *)
Definition blank : t :=
  {| process := Unset; gdb_ports := []; timeout := 0; slept := 0;
     waiting_message := false; log_printed := false |}.

End Openocd.

(** * Specifications *)

(** ** What a piece of monadic code does to the state *)

(** [m] leaves the observation [f] of the state as it found it, whatever
    its outcome. *)
Definition preserves {S A X} (f : S -> X) (m : M S A) : Prop :=
  forall s s' r, m s = (s', r) -> f s' = f s.

(** [m] only appends to the trace [tr] of the state, and what it appends
    satisfies [P]. *)
Definition appends {S E A} (tr : S -> list E) (P : E -> Prop) (m : M S A) : Prop :=
  forall s s' r, m s = (s', r) -> exists evs, tr s' = tr s ++ evs /\ Forall P evs.

(** [m] keeps the invariant [I], whatever its outcome. *)
Definition maintains {S A} (I : S -> Prop) (m : M S A) : Prop :=
  forall s s' r, m s = (s', r) -> I s -> I s'.

(** ** Vocabulary of the claims about the test runner *)

Import BaseTest.

(** An event other than the call of [classTeardown]. *)
Definition not_teardown (ev : event) : Prop := ev <> CallClassTeardown.

(** A console line other than the report of a test's result. *)
Definition not_finished (l : console_line) : Prop :=
  match l with Finished _ _ => False | _ => True end.

(** An event other than an invocation of [target.compile]. *)
Definition not_compile (ev : event) : Prop :=
  match ev with CallTargetCompile _ _ => False | _ => True end.

(** The number of invocations of [target.compile] on the tuple [a]. *)
Definition is_compile_of (a : list string) (ev : event) : bool :=
  match ev with
  | CallTargetCompile _ a' => bool_decide (a' = a)
  | _ => false
  end.
Definition invocations (a : list string) (evs : list event) : nat :=
  length (List.filter (is_compile_of a) evs).

(** What an invariant of the cache and of [self.binary] needs of a step. *)
Definition cache_view (w : world) : gmap (list string) string * option string :=
  (compiled w, binary (self w)).

Definition binary_of (w : world) : option string := binary (self w).

(** What [classSetup], [setup] and [test] do once [compile] has returned. *)
Definition after_compile (tg : target) (d : definition) : M world pyval :=
  (tp <- call CallTargetCreate (target_create tg) ;;
   on_self (set_target_process (Bound tp)) ;;
   (match tp with
    | Some logname => on_self (append_log logname)
    | None => ret tt
    end) ;;
   try_except
     (s <- call CallTargetServer (target_server tg) ;;
      on_self (set_server (Bound (Some s))) ;;
      on_self (append_log s))
     (fun e => if is_Exception e then print_logs ;; raise e else raise e)) ;;
  call CallSetup (setup d) ;;
  call CallTest (test d).

(** ** Vocabulary of the claims about the sessions *)

(** The events of [c_all]: a resume is issued with [sendline("c")] and
    acknowledged by "Continuing"; the wait for a halt is the expectation of
    the prompt. *)
Definition resume_issued (c : child) : io := Sendline c "c".
Definition is_resume (ev : io) : Prop :=
  exists c, ev = resume_issued c \/ ev = Expect c "Continuing" (-1).
Definition is_wait_for_halt (ev : io) : Prop :=
  exists c, ev = Expect c Gdb.prompt (-1).

(** What [c_all] asks of the children [cs] when nothing raises: first the
    resume of each child with its acknowledgement, in the order of the
    children, and then the wait for the halt of each. *)
Definition resume_events (cs : list child) : list io :=
  flat_map (fun c => [resume_issued c; Expect c "Continuing" (-1)]) cs.
Definition wait_events (cs : list child) : list io :=
  (fun c => Expect c Gdb.prompt (-1)) <$> cs.

(** Every character of [s] is in the class [p]. *)
Fixpoint all_in (p : Ascii.ascii -> bool) (s : string) : Prop :=
  match s with
  | "" => True
  | String c s' => p c = true /\ all_in p s'
  end.

(** [s] does not begin with a character of the class [p]. *)
Definition stops (p : Ascii.ascii -> bool) (s : string) : Prop :=
  match s with
  | "" => True
  | String c _ => p c = false
  end.

(** The pattern of [p] and [p_raw] occurs in the response: the words
    Cannot access memory at address, then 0x and at least one of the digits
    0-9a-f. *)
Definition matches_cannot_access (output : string) : Prop :=
  exists pre ds post,
    output = pre +:+ "Cannot access memory at address 0x" +:+ ds +:+ post
    /\ ds <> "" /\ all_in Str.is_lower_hex ds.

(** ** Suites to run *)

Definition hart0 : Hart := {| hart_id := 0; xlen := 32 |}.

(** A target whose simulator, server and compiler work. *)
Definition spike32 : target :=
  {| type_name := "spike32";
     harts := [hart0];
     target_compile := fun _ _ _ => Ok "/tmp/debug_compiled";
     target_create := fun _ => Ok (Some "/tmp/spike.log");
     target_server := fun _ => Ok "/tmp/openocd.log" |}.

(** The same target with a compiler that fails. *)
Definition spike32_no_compiler : target :=
  {| type_name := "spike32";
     harts := [hart0];
     target_compile := fun _ _ _ => Raise (Exception "Compile failed!");
     target_create := fun _ => Ok (Some "/tmp/spike.log");
     target_server := fun _ => Ok "/tmp/openocd.log" |}.

(** The same target with a server that leaves through [exit(1)], as
    [Openocd.__init__] does when its configuration file is not found. *)
Definition spike32_no_config : target :=
  {| type_name := "spike32";
     harts := [hart0];
     target_compile := fun _ _ _ => Ok "/tmp/debug_compiled";
     target_create := fun _ => Ok (Some "/tmp/spike.log");
     target_server := fun _ => Raise (SystemExit 1) |}.

(** A test whose body does [body]; its [postMortem] times out. *)
Definition test_with (args : option (list string)) (body : result pyval) : definition :=
  {| compile_args := args;
     early_applicable := fun _ => Ok (PyInt 1);
     setup := fun _ => Ok tt;
     test := fun _ => body;
     postMortem := fun _ => Raise TIMEOUT |}.

Definition debug_c : list string := ["programs/debug.c"].

Definition passing : definition := test_with (Some debug_c) (Ok PyNone).
Definition failing : definition := test_with (Some debug_c) (Raise (TestFailed "1 != 2")).
Definition crashing : definition := test_with None (Raise IndexError).
Definition skipping : definition := test_with None (Ok (PyStr "skipped")).

(** The suite of three tests: one passes, one fails, one crashes. *)
Definition three_tests : list (string * definition * option Hart) :=
  [("A", passing, None); ("B", failing, None); ("C", crashing, None)].

(** The start of the process: nothing compiled, nothing done. *)
Definition fresh : world :=
  {| compiled := ∅; history := [];
     self := {| hart := hart0; server := Bound None; target_process := Bound None;
                binary := None; logs := [] |} |}.

Definition quiet_console : suite := {| console := []; tests := fresh |}.

Definition keep_going : options :=
  {| logs_dir := "logs"; fail_fast := false; print_failures := false |}.

Definition timestamp (n : nat) : string := "20260101-000000".

(** ** Sessions to drive *)

(** A gdb that answers every command with the report of an unreadable
    address. *)
Definition unreadable (h : list io) (ev : io) : result string :=
  match ev with
  | Expect _ pattern _ =>
      if decide (pattern = Gdb.prompt)
      then Ok ("Cannot access memory at address 0x10" +:+ Gdb.newline)
      else Ok ""
  | _ => Ok ""
  end.

(** Two gdbs, the second of which never answers. *)
Definition second_hangs (h : list io) (ev : io) : result string :=
  match ev with
  | Expect (S _) _ _ => Raise TIMEOUT
  | _ => Ok ""
  end.

(** Gdbs that answer at once. *)
Definition prompt_at_once (h : list io) (ev : io) : result string := Ok "".

Definition one_gdb : Gdb.t :=
  {| Gdb.ports := [3333%Z]; Gdb.timeout := 60; Gdb.binary := None; Gdb.stack := [];
     Gdb.harts := ∅; Gdb.children := [0%nat]; Gdb.active_child := 0%nat;
     Gdb.transcript := [] |}.

Definition two_gdbs : Gdb.t :=
  {| Gdb.ports := [3333%Z; 3334%Z]; Gdb.timeout := 60; Gdb.binary := None;
     Gdb.stack := []; Gdb.harts := ∅; Gdb.children := [0%nat; 1%nat];
     Gdb.active_child := 0%nat; Gdb.transcript := [] |}.

(** The threads of a gdb that lists a thread named Default and then a
    thread named Hart 0. *)
Definition thread_default : Thread :=
  {| id := "1"; description := "Thread 1 (Name: Default"; target_id := Some "1";
     name := Some "Default"; frame := ")" |}.
Definition thread_hart0 : Thread :=
  {| id := "2"; description := "Thread 2 (Name: Hart 0"; target_id := Some "2";
     name := Some "Hart 0"; frame := ")" |}.

(** The answers of that gdb: the list of threads after [info threads], and
    nothing else. *)
Definition two_threads (h : list io) (ev : io) : result string :=
  match ev with
  | Expect _ pattern _ =>
      if decide (pattern = Gdb.prompt) then
        match reverse h with
        | _ :: Sendline _ line :: _ =>
            if decide (line = "info threads") then
              Ok ("  Id   Target Id         Frame " +:+ Gdb.newline +:+
                  "  1    Thread 1 (Name: Default)" +:+ Gdb.newline +:+
                  "* 2    Thread 2 (Name: Hart 0)" +:+ Gdb.newline)
            else Ok ""
        | _ => Ok ""
        end
      else Ok ""
  | _ => Ok ""
  end.

(** ** Simulators to wait for *)

(** A [simv] that keeps running and writes nothing. *)
Definition silent_simv : VcsSim.spawn :=
  {| VcsSim.popen := Ok Running;
     VcsSim.poll_at := fun _ => None;
     VcsSim.readline_at := fun _ => "" |}.

(** An OpenOCD that keeps running and writes nothing, however long. *)
Definition silent_openocd : Openocd.spawn :=
  {| Openocd.config_missing := false;
     Openocd.popen := Ok Running;
     Openocd.readline_at := fun _ => "";
     Openocd.poll_at := fun _ => None;
     Openocd.elapsed_at := fun n => Z.of_nat n |}.

(** A [simv] that cannot be started: [subprocess.Popen] raises OSError. *)
Definition missing_simv : VcsSim.spawn :=
  {| VcsSim.popen := Raise OSError;
     VcsSim.poll_at := fun _ => None;
     VcsSim.readline_at := fun _ => "" |}.

(** * Proofs *)

(** ** Reasoning about monadic code *)

Section MonadFacts.
Context {S : Type}.

Lemma preserves_ret {A X} (f : S -> X) (a : A) : preserves f (ret a).
Proof. intros s s' r [= <- _]. reflexivity. Qed.

Lemma preserves_raise {A X} (f : S -> X) e : preserves f (raise (A := A) e).
Proof. intros s s' r [= <- _]. reflexivity. Qed.

Lemma preserves_lift {A X} (f : S -> X) (x : result A) : preserves f (lift x).
Proof. intros s s' r [= <- _]. reflexivity. Qed.

Lemma preserves_get {X} (f : S -> X) : preserves f get.
Proof. intros s s' r [= <- _]. reflexivity. Qed.

Lemma preserves_modify {X} (f : S -> X) (g : S -> S) :
  (forall s, f (g s) = f s) -> preserves f (modify g).
Proof. intros Hg s s' r [= <- _]. apply Hg. Qed.

Lemma preserves_bind {A B X} (f : S -> X) (m : M S A) (k : A -> M S B) :
  preserves f m -> (forall a, preserves f (k a)) -> preserves f (bind m k).
Proof.
  intros Hm Hk s s' r. unfold bind.
  destruct (m s) as [s1 [a|e]] eqn:E.
  - intros H. rewrite (Hk _ _ _ _ H). eapply Hm, E.
  - intros [= <- _]. eapply Hm, E.
Qed.

Lemma preserves_try_except {A X} (f : S -> X) (m : M S A) (h : exn -> M S A) :
  preserves f m -> (forall e, preserves f (h e)) -> preserves f (try_except m h).
Proof.
  intros Hm Hh s s' r. unfold try_except.
  destruct (m s) as [s1 [a|e]] eqn:E.
  - intros [= <- _]. eapply Hm, E.
  - intros H. rewrite (Hh _ _ _ _ H). eapply Hm, E.
Qed.

Lemma preserves_try_finally {A X} (f : S -> X) (m : M S A) (fin : M S unit) :
  preserves f m -> preserves f fin -> preserves f (try_finally m fin).
Proof.
  intros Hm Hf s s' r. unfold try_finally.
  destruct (m s) as [s1 r1] eqn:E. destruct (fin s1) as [s2 [[]|e]] eqn:E2;
    intros [= <- _]; rewrite (Hf _ _ _ E2); eapply Hm, E.
Qed.

Lemma preserves_for_each {A X} (f : S -> X) (l : list A) (body : A -> M S unit) :
  (forall a, preserves f (body a)) -> preserves f (for_each l body).
Proof.
  intros Hb. induction l as [|a l IH]; simpl.
  - apply preserves_ret.
  - apply preserves_bind; auto.
Qed.

End MonadFacts.


Section TraceFacts.
Context {S E : Type} (tr : S -> list E) (P : E -> Prop).

Lemma appends_nothing {A} (m : M S A) : preserves tr m -> appends tr P m.
Proof. intros H s s' r Hm. exists []. rewrite (H _ _ _ Hm), app_nil_r. auto. Qed.

Lemma appends_bind {A B} (m : M S A) (k : A -> M S B) :
  appends tr P m -> (forall a, appends tr P (k a)) -> appends tr P (bind m k).
Proof.
  intros Hm Hk s s' r. unfold bind.
  destruct (m s) as [s1 [a|e]] eqn:E1.
  - intros H. destruct (Hm _ _ _ E1) as (l1 & H1 & F1).
    destruct (Hk _ _ _ _ H) as (l2 & H2 & F2).
    exists (l1 ++ l2). rewrite H2, H1, app_assoc. split; [done|]. by apply Forall_app.
  - intros [= <- _]. eapply Hm, E1.
Qed.

Lemma appends_try_except {A} (m : M S A) (h : exn -> M S A) :
  appends tr P m -> (forall e, appends tr P (h e)) -> appends tr P (try_except m h).
Proof.
  intros Hm Hh s s' r. unfold try_except.
  destruct (m s) as [s1 [a|e]] eqn:E1.
  - intros [= <- _]. eapply Hm, E1.
  - intros H. destruct (Hm _ _ _ E1) as (l1 & H1 & F1).
    destruct (Hh _ _ _ _ H) as (l2 & H2 & F2).
    exists (l1 ++ l2). rewrite H2, H1, app_assoc. split; [done|]. by apply Forall_app.
Qed.

Lemma appends_try_finally {A} (m : M S A) (fin : M S unit) :
  appends tr P m -> appends tr P fin -> appends tr P (try_finally m fin).
Proof.
  intros Hm Hf s s' r. unfold try_finally.
  destruct (m s) as [s1 r1] eqn:E1. destruct (fin s1) as [s2 r2] eqn:E2.
  destruct (Hm _ _ _ E1) as (l1 & H1 & F1).
  destruct (Hf _ _ _ E2) as (l2 & H2 & F2).
  intros H. exists (l1 ++ l2). split; [|by apply Forall_app].
  rewrite app_assoc, <- H1, <- H2.
  destruct r2 as [[]|e]; by injection H as <- _.
Qed.

Lemma appends_for_each {A} (l : list A) (body : A -> M S unit) :
  (forall a, appends tr P (body a)) -> appends tr P (for_each l body).
Proof.
  intros Hb. induction l as [|a l IH]; simpl.
  - apply appends_nothing, preserves_ret.
  - apply appends_bind; auto.
Qed.

End TraceFacts.

Lemma appends_emit (P : event -> Prop) ev : P ev -> appends history P (emit ev).
Proof. intros HP w w' r [= <- _]. exists [ev]. simpl. auto. Qed.

Lemma appends_call {A} (P : event -> Prop) ev (o : list event -> result A) :
  P ev -> appends history P (call ev o).
Proof. intros HP w w' r [= <- _]. exists [ev]. simpl. auto. Qed.

Lemma preserves_emit {X} (f : world -> X) ev :
  (forall w, f (record ev w) = f w) -> preserves f (emit ev).
Proof. intros H. by apply preserves_modify. Qed.

Lemma preserves_call {A X} (f : world -> X) ev (o : list event -> result A) :
  (forall w, f (record ev w) = f w) -> preserves f (call ev o).
Proof. intros H w w' r [= <- _]. apply H. Qed.

(** Decompose a goal about [preserves] or [appends] along the code; [tac]
    is tried first on every piece. *)
Ltac along_with tac :=
  repeat first
    [ tac
    | match goal with |- forall _, _ => intro end
    | apply preserves_ret | apply preserves_raise | apply preserves_lift
    | apply preserves_get
    | apply preserves_bind | apply preserves_try_except | apply preserves_try_finally
    | apply preserves_for_each
    | apply preserves_emit; reflexivity
    | apply preserves_call; reflexivity
    | apply preserves_modify; reflexivity
    | apply appends_bind | apply appends_try_except | apply appends_try_finally
    | apply appends_for_each
    | apply appends_emit; solve [cbv beta; auto; first [congruence | exact I | done]]
    | apply appends_call; solve [cbv beta; auto; first [congruence | exact I | done]]
    | match goal with
      | |- preserves _ (if ?b then _ else _) => destruct b
      | |- preserves _ (match ?x with _ => _ end) => destruct x
      | |- appends _ _ (if ?b then _ else _) => destruct b
      | |- appends _ _ (match ?x with _ => _ end) => destruct x
      end
    | apply appends_nothing ].

Ltac along := along_with fail.

(** ** The test runner *)

(** *** One test *)

Lemma run_body_appends tg d :
  appends history not_teardown
    (try_except (result <- try_block tg d ;; ret (inr result)) (except_block d)).
Proof.
  unfold try_block, except_block, classSetup, compile, handle_Exception,
    print_logs, print_log, on_self, not_teardown.
  along.
Qed.

Lemma print_logs_spec w :
  exists evs,
    print_logs w =
      ({| compiled := compiled w; history := history w ++ evs; self := self w |}, Ok tt)
    /\ Forall not_teardown evs.
Proof.
  unfold print_logs, bind, get. generalize (logs (self w)). intros l.
  revert w. induction l as [|p l IH]; intros w; simpl.
  - exists []. rewrite app_nil_r. by destruct w.
  - destruct (IH (record (PrintLog p) (record (PrintHeader p) w))) as (evs & E & F).
    exists (PrintHeader p :: PrintLog p :: evs). split.
    + unfold bind in *. simpl. rewrite E. simpl. by rewrite <- !app_assoc.
    + repeat constructor; [discriminate..|done].
Qed.

Lemma finally_block_spec w :
  exists evs,
    finally_block w =
      ({| compiled := compiled w;
          history := history w ++ evs ++ [CallClassTeardown];
          self := set_target_process Deleted (set_server Deleted (self w)) |}, Ok tt)
    /\ Forall not_teardown evs.
Proof.
  destruct (print_logs_spec w) as (evs & E & F).
  exists (evs ++ [PrintHeader "End of logs"]). split.
  - unfold finally_block, bind. rewrite E.
    cbv [classTeardown emit on_self modify bind record set_self]. simpl.
    by rewrite <- !app_assoc.
  - apply Forall_app. split; [done|]. repeat constructor. discriminate.
Qed.

(** C9.  Once [early_applicable] has let the test through, so that the
    [try] block of [run] is entered and set-up begins, [classTeardown] is
    called however [run] ends (a result returned after normal completion,
    after TestFailed, TestNotApplicable or another Exception, or an exception
    that propagates): it is called once, as the last thing [run] does, and
    leaves [self.server] and [self.target_process] deleted. *)
Theorem teardown_on_every_exit_path tg d w ea w' r :
  early_applicable d (history w) = Ok ea ->
  truthy ea = true ->
  run tg d w = (w', r) ->
  (exists evs, history w' = history w ++ evs ++ [CallClassTeardown]
               /\ Forall not_teardown evs)
  /\ server (self w') = Deleted
  /\ target_process (self w') = Deleted.
Proof.
  intros Hea Ht. unfold run, bind at 1. unfold call at 1. rewrite Hea, Ht. simpl.
  unfold bind, try_finally.
  destruct (try_except _ _ _) as [w1 r1] eqn:E1.
  apply run_body_appends in E1 as (evs1 & H1 & F1).
  destruct (finally_block_spec w1) as (evs2 & -> & F2).
  intros H.
  assert (w' = {| compiled := compiled w1;
                  history := history w1 ++ evs2 ++ [CallClassTeardown];
                  self := set_target_process Deleted (set_server Deleted (self w1)) |}) as ->.
  { destruct r1 as [[v|v]|e]; by injection H as <- _. }
  simpl. split; [|done].
  exists (CallEarlyApplicable :: evs1 ++ evs2). split.
  - rewrite H1. simpl. by rewrite <- !app_assoc.
  - constructor; [discriminate|]. by apply Forall_app.
Qed.


Lemma try_finally_block {A} (m : M world A) w w1 r :
  m w = (w1, r) -> snd (try_finally m finally_block w) = r.
Proof.
  intros E. unfold try_finally. rewrite E.
  destruct (finally_block_spec w1) as (evs & -> & _). reflexivity.
Qed.

Lemma handle_Exception_returns d e w :
  (forall h e', postMortem d h = Raise e' -> is_Exception e' = true) ->
  exists w', handle_Exception d e w =
             (w', Ok (if is_TestFailed e then PyStr "fail" else PyStr "exception")).
Proof.
  intros Hpm. unfold handle_Exception.
  set (result := if is_TestFailed e then _ else _).
  assert (forall w0, exists w',
             (emit (PrintHeader "Traceback") ;; emit PrintExc ;;
              try_except (call CallPostMortem (postMortem d))
                (fun e' => if is_Exception e'
                           then emit (PrintHeader "postMortem Exception") ;;
                                emit (PrintExn e') ;; emit PrintExc
                           else raise e') ;;
              ret result) w0 = (w', Ok result)) as Hrest.
  { intros w0. cbv [bind emit modify try_except call ret raise].
    destruct (postMortem d _) as [[]|e'] eqn:E; [by eauto|].
    rewrite (Hpm _ _ E). by eauto. }
  destruct e; cbv [bind emit modify ret] ; apply Hrest.
Qed.

(** C1, amended.  Let the test be let through by [early_applicable], let
    the [try] block of [run] ([classSetup], [setup], the body) end in [out],
    and let [postMortem] raise nothing outside Exception.  Then [run] returns
    [fail] when [out] is a TestFailed, [not_applicable] when it is a
    TestNotApplicable, and [exception] when it is any other instance of
    Exception; an exception outside Exception propagates out of [run]; a
    body that returns a false value gives [pass], and a body that returns a
    true value gives that value. *)
Theorem outcome_by_exception_type tg d w ea w1 out :
  early_applicable d (history w) = Ok ea ->
  truthy ea = true ->
  try_block tg d (record CallEarlyApplicable w) = (w1, out) ->
  (forall h e, postMortem d h = Raise e -> is_Exception e = true) ->
  (forall m, out = Raise (TestFailed m) -> snd (run tg d w) = Ok (PyStr "fail"))
  /\ (forall m, out = Raise (TestNotApplicable m) ->
                snd (run tg d w) = Ok (PyStr "not_applicable"))
  /\ (forall e, out = Raise e -> is_TestFailed e = false ->
                is_TestNotApplicable e = false -> is_Exception e = true ->
                snd (run tg d w) = Ok (PyStr "exception"))
  /\ (forall e, out = Raise e -> is_Exception e = false -> snd (run tg d w) = Raise e)
  /\ (forall v, out = Ok v -> truthy v = false -> snd (run tg d w) = Ok (PyStr "pass"))
  /\ (forall v, out = Ok v -> truthy v = true -> snd (run tg d w) = Ok v).
Proof.
  intros Hea Ht Htry Hpm.
  assert (forall r,
             try_except (result <- try_block tg d ;; ret (inr result)) (except_block d)
               (record CallEarlyApplicable w) = r ->
             snd (run tg d w) =
               match snd r with
               | Ok (inl v) => Ok v
               | Ok (inr v) => Ok (if truthy v then v else PyStr "pass")
               | Raise e => Raise e
               end) as Hrun.
  { intros [w2 r] E. unfold run.
    set (body := try_except _ _) in *.
    unfold bind at 1. unfold call at 1. rewrite Hea, Ht. simpl.
    pose proof (try_finally_block _ _ _ _ E) as H3.
    unfold bind. destruct (try_finally _ _ _) as [w3 r3]. simpl in H3.
    subst r3. by destruct r as [[v|v]|e]. }
  assert (forall e, out = Raise e ->
             try_except (result <- try_block tg d ;; ret (inr result)) (except_block d)
               (record CallEarlyApplicable w) = except_block d e w1) as Hexc.
  { intros e ->. unfold try_except, bind. by rewrite Htry. }
  repeat split.
  - intros m ->. rewrite (Hrun _ (Hexc _ eq_refl)). unfold except_block. simpl.
    destruct (handle_Exception_returns d (TestFailed m) w1 Hpm) as (w' & E).
    unfold bind. by rewrite E.
  - intros m ->. by rewrite (Hrun _ (Hexc _ eq_refl)).
  - intros e -> Hf Hn He. rewrite (Hrun _ (Hexc _ eq_refl)). unfold except_block.
    rewrite Hn, He.
    destruct (handle_Exception_returns d e w1 Hpm) as (w' & E).
    unfold bind. rewrite E. simpl. by rewrite Hf.
  - intros e -> He. rewrite (Hrun _ (Hexc _ eq_refl)). unfold except_block.
    rewrite He. by destruct e.
  - intros v -> Hv. erewrite Hrun; [|reflexivity].
    unfold try_except, bind. rewrite Htry. simpl. by rewrite Hv.
  - intros v -> Hv. erewrite Hrun; [|reflexivity].
    unfold try_except, bind. rewrite Htry. simpl. by rewrite Hv.
Qed.


(** *** The suite *)

Lemma appends_print P l : P l -> appends console P (print l).
Proof. intros HP s s' r [= <- _]. exists [l]. simpl. auto. Qed.

Lemma print_results_loop_spec items : forall result s s' code,
  print_results_loop items result s = (s', Ok code) ->
  (exists lines, console s' = console s ++ lines /\ Forall not_finished lines)
  /\ (code = result /\ Forall (fun kv => kv.1 ∈ good_results) items
      \/ code = 1%Z /\ ~ Forall (fun kv => kv.1 ∈ good_results) items).
Proof.
  induction items as [|[key value] items IH]; intros result s s' code; simpl.
  - intros [= <- <-]. split; [exists []; by rewrite app_nil_r|]. left. by split.
  - unfold bind at 1. unfold print at 1. unfold modify. simpl.
    destruct (decide (key ∉ good_results)) as [Hbad|Hgood].
    + unfold bind at 1.
      destruct (for_each value _ _) as [s1 [[]|e]] eqn:E1; [|discriminate].
      intros H. apply IH in H as ((lines & Hl & Fl) & Hc).
      assert (appends console not_finished
                (for_each value (fun '(name, log) => print (BadTest name log)))) as Ha.
      { apply appends_for_each. intros [n l]. by apply appends_print. }
      apply Ha in E1 as (lines1 & H1 & F1). simpl in H1.
      split.
      * exists (Returned (length value) key :: lines1 ++ lines).
        rewrite Hl, H1, <- !app_assoc. split; [done|].
        constructor; [done|]. by apply Forall_app.
      * right. split; [by destruct Hc as [[-> _]|[-> _]]|].
        intros HF. by inversion HF.
    + intros H. apply IH in H as ((lines & Hl & Fl) & Hc). split.
      * exists (Returned (length value) key :: lines).
        rewrite Hl. simpl. rewrite <- app_assoc. split; [done|]. by constructor.
      * apply dec_stable in Hgood.
        destruct Hc as [[-> HF]|[-> HF]]; [left|right]; split; try done.
        -- by constructor.
        -- intros HF'. by inversion HF'.
Qed.

Lemma run_tests_loop_spec strftime parsed tg todo : forall results count s s' res cnt,
  run_tests_loop strftime parsed tg todo results count s = (s', Ok (res, cnt)) ->
  exists lines,
    console s' = console s ++ lines
    /\ forall key, key ∈ dom res <->
                   key ∈ dom results \/ exists name, Finished name key ∈ lines.
Proof.
  induction todo as [|[[name d] h] todo IH]; intros results count s s' res cnt; simpl.
  - intros [= <- <- <-]. exists []. rewrite app_nil_r. split; [done|].
    intros key. split; [auto|]. intros [?|[n Hn]]; [done|]. by apply elem_of_nil in Hn.
  - unfold log_name. cbv [bind get ret print modify in_test try_finally]. simpl.
    destruct (BaseTest.__init__ tg h (tests s)) as [w0 [[]|e]]; [|discriminate].
    simpl.
    destruct (BaseTest.run tg d _) as [w1 [result|e]]; simpl; [|discriminate].
    set (log := (logs_dir parsed +:+ _)%string).
    assert (forall lines' s3,
               Forall not_finished lines' ->
               console s3 = console s ++ [Starting name log; Finished name result] ++ lines' ->
               (res = setdefault_append result (name, log) results /\ s' = s3
                \/ run_tests_loop strftime parsed tg todo
                     (setdefault_append result (name, log) results) (S count) s3
                   = (s', Ok (res, cnt))) ->
               exists lines : list console_line,
                 console s' = console s ++ lines
                 /\ (forall key, key ∈ dom res <->
                       key ∈ dom results \/ (exists name0, Finished name0 key ∈ lines)))
      as Hstep.
    { intros lines' s3 F' H3 [[-> ->]|Hrec].
      - exists ([Starting name log; Finished name result] ++ lines').
        split; [done|].
        intros key. unfold setdefault_append. rewrite dom_insert, elem_of_union,
          elem_of_singleton.
        split.
        + intros [->|?]; [right|by left]. exists name. simpl. rewrite !elem_of_cons. auto.
        + intros [?|[n Hn]]; [by right|left].
          simpl in Hn. rewrite !elem_of_cons in Hn.
          destruct Hn as [?|[[= _ ->]|Hn]]; [done|done|].
          rewrite Forall_forall in F'. apply F' in Hn. done.
      - apply IH in Hrec as (lines & Hl & Hk).
        exists ([Starting name log; Finished name result] ++ lines' ++ lines).
        split; [rewrite Hl, H3, <- !app_assoc; done|].
        intros key. rewrite Hk. unfold setdefault_append.
        rewrite dom_insert, elem_of_union, elem_of_singleton.
        split.
        + intros [[->|?]|[n Hn]]; [right|by left|right].
          * exists name. simpl. rewrite !elem_of_cons. auto.
          * exists n. simpl. rewrite !elem_of_cons, elem_of_app. auto.
        + intros [?|[n Hn]]; [by left; right|].
          simpl in Hn. rewrite !elem_of_cons, elem_of_app in Hn.
          destruct Hn as [?|[[= _ ->]|[Hn|Hn]]]; [done|by left; left| |
            by right; exists n].
          rewrite Forall_forall in F'. apply F' in Hn. done. }
    destruct (decide (result ∉ good_results)) as [Hbad|Hgood].
    + destruct (print_failures parsed), (fail_fast parsed); simpl; intros H.
      * injection H as <- <- <-.
        refine (Hstep [EchoLog log] _ _ _ (or_introl (conj eq_refl eq_refl)));
          [by repeat constructor|]. simpl. by rewrite <- !app_assoc.
      * refine (Hstep [EchoLog log] _ _ _ (or_intror H));
          [by repeat constructor|]. simpl. by rewrite <- !app_assoc.
      * injection H as <- <- <-.
        refine (Hstep [] _ _ _ (or_introl (conj eq_refl eq_refl)));
          [by constructor|]. simpl. by rewrite <- !app_assoc.
      * refine (Hstep [] _ _ _ (or_intror H)); [by constructor|].
        simpl. by rewrite <- !app_assoc.
    + simpl. intros H.
      refine (Hstep [] _ _ _ (or_intror H)); [by constructor|].
      simpl. by rewrite <- !app_assoc.
Qed.


(** C2.  When [run_all_tests] returns an exit status, it is 0 if and only
    if every result the run has reported for a test is in [good_results],
    that is [pass] or [not_applicable]; any other status is 1. *)
Theorem exit_status_zero_iff_all_good strftime parsed tg todo s s' code :
  run_all_tests strftime parsed tg todo s = (s', Ok code) ->
  exists lines,
    console s' = console s ++ lines
    /\ (code = 0%Z <->
        forall name result, Finished name result ∈ lines -> result ∈ good_results)
    /\ (code <> 0%Z -> code = 1%Z).
Proof.
  unfold run_all_tests, run_tests, bind.
  destruct (run_tests_loop _ _ _ _ _ _ _) as [s1 [[res cnt]|e]] eqn:E1; [|discriminate].
  simpl. unfold print_results. cbv [print modify]. intros E2.
  apply run_tests_loop_spec in E1 as (lines1 & H1 & Hk).
  apply print_results_loop_spec in E2 as ((lines2' & H2 & F2') & Hc).
  simpl in H2. rewrite <- app_assoc in H2.
  set (lines2 := [RanTests cnt] ++ lines2') in *.
  assert (Forall not_finished lines2) as F2 by (by constructor).
  assert (Forall (fun kv : pyval * list (string * string) => kv.1 ∈ good_results)
            (map_to_list res) <->
          forall name result, Finished name result ∈ lines1 ++ lines2 ->
                              result ∈ good_results) as Hall.
  { rewrite Forall_forall. split.
    - intros HF name result Hin. apply elem_of_app in Hin as [Hin|Hin].
      + assert (result ∈ dom res) as Hd by (apply Hk; eauto).
        apply elem_of_dom in Hd as [v Hv].
        apply (HF (result, v)). by apply elem_of_map_to_list.
      + rewrite Forall_forall in F2. by apply F2 in Hin.
    - intros Hall [key v] Hin. simpl.
      apply elem_of_map_to_list in Hin.
      assert (key ∈ dom res) as Hd by (apply elem_of_dom; eauto).
      apply Hk in Hd as [Hd|[name Hn]]; [by rewrite dom_empty in Hd|].
      apply (Hall name). apply elem_of_app. auto. }
  exists (lines1 ++ lines2). split; [by rewrite H2, H1, app_assoc|].
  rewrite <- Hall.
  destruct Hc as [[-> HF]|[-> HF]]; split; try done.
Qed.


(** *** The cache of compiled programs *)

Section InvariantFacts.
Context {S : Type} (I : S -> Prop).

Lemma maintains_preserved {A X} (f : S -> X) (m : M S A) :
  (forall s s', f s' = f s -> I s -> I s') -> preserves f m -> maintains I m.
Proof. intros HI Hp s s' r Hm. apply HI. eapply Hp, Hm. Qed.

Lemma maintains_bind {A B} (m : M S A) (k : A -> M S B) :
  maintains I m -> (forall a, maintains I (k a)) -> maintains I (bind m k).
Proof.
  intros Hm Hk s s' r. unfold bind.
  destruct (m s) as [s1 [a|e]] eqn:E1.
  - intros H HI. eapply Hk; [exact H|]. eapply Hm; eauto.
  - intros [= <- _]. eapply Hm, E1.
Qed.

Lemma maintains_try_except {A} (m : M S A) (h : exn -> M S A) :
  maintains I m -> (forall e, maintains I (h e)) -> maintains I (try_except m h).
Proof.
  intros Hm Hh s s' r. unfold try_except.
  destruct (m s) as [s1 [a|e]] eqn:E1.
  - intros [= <- _]. eapply Hm, E1.
  - intros H HI. eapply Hh; [exact H|]. eapply Hm; eauto.
Qed.

Lemma maintains_try_finally {A} (m : M S A) (fin : M S unit) :
  maintains I m -> maintains I fin -> maintains I (try_finally m fin).
Proof.
  intros Hm Hf s s' r. unfold try_finally.
  destruct (m s) as [s1 r1] eqn:E1. destruct (fin s1) as [s2 r2] eqn:E2.
  intros H HI.
  assert (s' = s2) as -> by (destruct r2 as [[]|e]; by injection H as <- _).
  eapply Hf; [exact E2|]. eapply Hm; eauto.
Qed.

Lemma maintains_for_each {A} (l : list A) (body : A -> M S unit) :
  (forall a, maintains I (body a)) -> maintains I (for_each l body).
Proof.
  intros Hb. induction l as [|a l IH]; simpl.
  - by intros s s' r [= <- _].
  - apply maintains_bind; auto.
Qed.

End InvariantFacts.

Lemma compile_hit tg d a b w :
  compile_args d = Some a -> a <> [] -> compiled w !! a = Some b ->
  compile tg d w = (set_self (set_binary (Some b) (self w)) w, Ok tt).
Proof.
  intros Ha Hne Hb. unfold compile. rewrite Ha. destruct a as [|x a]; [done|]. simpl.
  cbv [bind get]. rewrite decide_False by (rewrite Hb; discriminate).
  cbv [ret on_self modify]. simpl. by rewrite Hb.
Qed.

Lemma compile_undeclared tg d w :
  compile_args d = None ->
  compile tg d w = (set_self (set_binary None (self w)) w, Ok tt).
Proof. intros Ha. unfold compile. rewrite Ha. reflexivity. Qed.

Lemma compile_grows tg d c :
  maintains (fun w => c ⊆ compiled w) (compile tg d).
Proof.
  intros w w' r. unfold compile. cbv [bind get ret on_self modify call].
  destruct (args_truthy _); [|by intros [= <- _]].
  destruct (decide _) as [Hmiss|]; [|by intros [= <- _]].
  destruct (target_compile _ _ _ _) as [b|e]; intros [= <- _]; simpl; [|done].
  intros Hc. etrans; [exact Hc|]. by apply insert_subseteq.
Qed.

Lemma compile_binary_cached tg d a :
  compile_args d = Some a ->
  maintains (fun w => forall b, binary (self w) = Some b -> compiled w !! a = Some b)
    (compile tg d).
Proof.
  intros Ha w w' r. unfold compile. rewrite Ha. cbv [bind get ret on_self modify call].
  destruct (args_truthy _); [|by intros [= <- _]].
  simpl. destruct (decide _) as [Hmiss|]; [|by intros [= <- _]].
  destruct (target_compile _ _ _ _) as [b|e]; intros [= <- _]; simpl; [done|].
  intros HI b Hb. by rewrite (HI _ Hb) in Hmiss.
Qed.

Lemma run_maintains tg d (I : world -> Prop) :
  (forall w w', cache_view w' = cache_view w -> I w -> I w') ->
  maintains I (compile tg d) ->
  maintains I (run tg d).
Proof.
  intros Hview Hc.
  unfold run, try_block, except_block, finally_block, classSetup, classTeardown,
    handle_Exception, print_logs, print_log.
  repeat first
    [ match goal with |- forall _, _ => intro end
    | apply Hc
    | apply maintains_bind | apply maintains_try_except | apply maintains_try_finally
    | apply maintains_for_each
    | match goal with
      | |- maintains _ (if ?b then _ else _) => destruct b
      | |- maintains _ (match ?x with _ => _ end) => destruct x
      end
    | apply (maintains_preserved _ cache_view); [exact Hview | unfold cache_view, on_self; along] ].
Qed.


Lemma try_block_after_compile tg d w wc :
  compile tg d w = (wc, Ok tt) -> try_block tg d w = after_compile tg d wc.
Proof.
  intros E. unfold try_block, classSetup, after_compile.
  unfold bind at 1 2. rewrite E. reflexivity.
Qed.

Lemma after_compile_quiet tg d :
  preserves binary_of (after_compile tg d)
  /\ appends history not_compile (after_compile tg d).
Proof.
  unfold after_compile, print_logs, print_log, on_self, binary_of. split; along.
Qed.

Lemma except_block_quiet d e :
  preserves binary_of (except_block d e)
  /\ appends history not_compile (except_block d e).
Proof.
  unfold except_block, handle_Exception, binary_of. split; along.
Qed.

Lemma finally_block_quiet :
  preserves binary_of finally_block
  /\ appends history not_compile finally_block.
Proof.
  unfold finally_block, classTeardown, print_logs, print_log, on_self, binary_of.
  split; along.
Qed.

(** A test whose tuple is in the cache: [target.compile] is not invoked,
    and the binary is the cached path. *)
Lemma run_hit tg d a b w ea w' r :
  compile_args d = Some a -> a <> [] -> compiled w !! a = Some b ->
  early_applicable d (history w) = Ok ea -> truthy ea = true ->
  run tg d w = (w', r) ->
  binary (self w') = Some b
  /\ exists evs, history w' = history w ++ evs /\ Forall not_compile evs.
Proof.
  intros Ha Hne Hb Hea Ht. unfold run. unfold bind at 1. unfold call at 1.
  rewrite Hea, Ht. simpl.
  set (w1 := record CallEarlyApplicable w).
  pose proof (compile_hit tg d a b w1 Ha Hne Hb) as Hc.
  set (wc := set_self _ w1) in Hc.
  cbv [bind try_finally try_except ret].
  rewrite (try_block_after_compile _ _ _ _ Hc).
  destruct (after_compile tg d wc) as [w2 r2] eqn:E2.
  destruct (after_compile_quiet tg d) as [Hp2 Ha2].
  apply Hp2 in E2 as Hb2. apply Ha2 in E2 as (evs2 & Hh2 & F2).
  assert (forall w3 (r3 : result (pyval + pyval)) w4 r4,
             binary_of w3 = Some b ->
             (exists evs, history w3 = history w ++ evs /\ Forall not_compile evs) ->
             finally_block w3 = (w4, r4) ->
             binary (self w4) = Some b
             /\ exists evs, history w4 = history w ++ evs /\ Forall not_compile evs)
    as Hfin.
  { intros w3 r3 w4 r4 Hb3 (evs3 & Hh3 & F3) E4.
    destruct finally_block_quiet as [Hp4 Ha4].
    apply Hp4 in E4 as Hb4. apply Ha4 in E4 as (evs4 & Hh4 & F4).
    split; [unfold binary_of in *; congruence|].
    exists (evs3 ++ evs4). rewrite Hh4, Hh3, app_assoc. split; [done|].
    by apply Forall_app. }
  assert (binary_of w2 = Some b) as Hw2 by (rewrite Hb2; reflexivity).
  assert (exists evs, history w2 = history w ++ evs /\ Forall not_compile evs) as Hev2.
  { exists (CallEarlyApplicable :: evs2). rewrite Hh2. simpl.
    rewrite <- app_assoc. split; [done|]. by constructor. }
  destruct r2 as [v|e].
  - destruct (finally_block w2) as [w4 r4] eqn:E4.
    intros H. assert (w' = w4) as -> by (destruct r4 as [[]|e]; by injection H as <- _).
    eapply (Hfin w2 (Ok (inr v))); eauto.
  - destruct (except_block d e w2) as [w3 r3] eqn:E3.
    destruct (except_block_quiet d e) as [Hp3 Ha3].
    apply Hp3 in E3 as Hb3. apply Ha3 in E3 as (evs3 & Hh3 & F3).
    destruct Hev2 as (evs & Hh & F).
    destruct (finally_block w3) as [w4 r4] eqn:E4.
    intros H.
    assert (w' = w4) as ->.
    { destruct r4 as [[]|e']; [destruct r3 as [[v|v]|e']|]; by injection H as <- _. }
    eapply (Hfin w3 r3); eauto; [congruence|].
    exists (evs ++ evs3). rewrite Hh3, Hh, app_assoc. split; [done|].
    by apply Forall_app.
Qed.


Lemma maintains_in_test {A} (I : world -> Prop) (m : M world A) :
  maintains I m -> maintains (fun s => I (tests s)) (in_test m).
Proof.
  intros Hm s s' r. unfold in_test. destruct (m (tests s)) as [w r'] eqn:E.
  intros [= <- _]. simpl. eapply Hm, E.
Qed.

Lemma maintains_on_console {A} (I : world -> Prop) (m : M suite A) :
  preserves tests m -> maintains (fun s => I (tests s)) m.
Proof. intros Hp s s' r Hm. by rewrite (Hp _ _ _ Hm). Qed.

Lemma init_keeps_cache tg h w w' r :
  __init__ tg h w = (w', r) -> compiled w' = compiled w.
Proof.
  unfold __init__. destruct h as [h|]; [|destruct (last _)]; by intros [= <- _].
Qed.

Lemma init_fresh tg h w w' :
  __init__ tg h w = (w', Ok tt) -> binary (self w') = None.
Proof.
  unfold __init__. destruct h as [h|]; [|destruct (last _)]; by intros [= <-].
Qed.

Lemma run_grows tg d c : maintains (fun w => c ⊆ compiled w) (run tg d).
Proof.
  apply run_maintains; [|apply compile_grows].
  unfold cache_view. intros w w' [= -> _]. done.
Qed.

Lemma run_tests_loop_grows strftime parsed tg c todo : forall results count,
  maintains (fun s => c ⊆ compiled (tests s))
    (run_tests_loop strftime parsed tg todo results count).
Proof.
  induction todo as [|[[name d] h] todo IH]; intros results count; simpl.
  - by intros s s' r [= <- _].
  - unfold log_name.
    repeat first
      [ match goal with |- forall _, _ => intro end
      | apply IH
      | apply run_grows
      | apply maintains_bind | apply maintains_try_finally
      | apply (maintains_in_test (fun w => c ⊆ compiled w))
      | match goal with
        | |- maintains _ (if ?b then _ else _) => destruct b
        end
      | apply (maintains_on_console (fun w => c ⊆ compiled w)); unfold print; along
      | apply (maintains_preserved _ compiled); [by intros ? ? ->|];
          first [ apply preserves_emit; reflexivity
                | intros w w' r H; apply (init_keeps_cache _ _ _ _ _ H) ] ].
Qed.

(** C10, amended.  Within one run of the suite the path that
    [target.compile] returns is cached by tuple of compile arguments.  Once a
    test with the tuple [a] has got a binary [b], whatever tests run in
    between, a later test with the same tuple that is let through by
    [early_applicable] gets the same [b] and does not invoke
    [target.compile]; and a test that declares no [compile_args] ends with no
    binary and invokes no compile.  (A compile that raises caches nothing.) *)
Theorem compiled_once_it_has_returned strftime parsed tg :
  (forall d1 d2 a b h1 w w0 w1 r1 mid results count s1 s2 rc h2 w2 ea w3 r3,
      compile_args d1 = Some a -> compile_args d2 = Some a -> a <> [] ->
      __init__ tg h1 w = (w0, Ok tt) ->
      run tg d1 w0 = (w1, r1) ->
      binary (self w1) = Some b ->
      tests s1 = w1 ->
      run_tests_loop strftime parsed tg mid results count s1 = (s2, rc) ->
      __init__ tg h2 (tests s2) = (w2, Ok tt) ->
      early_applicable d2 (history w2) = Ok ea -> truthy ea = true ->
      run tg d2 w2 = (w3, r3) ->
      binary (self w3) = Some b
      /\ exists evs, history w3 = history w2 ++ evs /\ Forall not_compile evs)
  /\ (forall d h w w0 w1 r,
        compile_args d = None ->
        __init__ tg h w = (w0, Ok tt) ->
        run tg d w0 = (w1, r) ->
        binary (self w1) = None
        /\ exists evs, history w1 = history w0 ++ evs /\ Forall not_compile evs).
Proof.
  split.
  - intros d1 d2 a b h1 w w0 w1 r1 mid results count s1 s2 rc h2 w2 ea w3 r3
      Ha1 Ha2 Hne Hi1 Hr1 Hb1 Hs1 Hmid Hi2 Hea Ht Hr2.
    assert (compiled w1 !! a = Some b) as Hc1.
    { refine (run_maintains tg d1
                (fun w => forall b, binary (self w) = Some b -> compiled w !! a = Some b)
                _ (compile_binary_cached tg d1 a Ha1) _ _ _ Hr1 _ b Hb1).
      - unfold cache_view. intros x x' [= -> ->]. done.
      - intros b'. by rewrite (init_fresh _ _ _ _ Hi1). }
    assert (compiled w1 ⊆ compiled (tests s2)) as Hsub.
    { refine (run_tests_loop_grows _ _ _ (compiled w1) mid _ _ _ _ _ Hmid _).
      by rewrite Hs1. }
    assert (compiled w2 !! a = Some b) as Hc2.
    { rewrite (init_keeps_cache _ _ _ _ _ Hi2).
      eapply lookup_weaken; [exact Hc1|exact Hsub]. }
    eapply run_hit; eauto.
  - intros d h w w0 w1 r Ha Hi Hr. split.
    + refine (run_maintains tg d (fun w => binary (self w) = None) _ _ _ _ _ Hr _).
      * unfold cache_view. intros x x' [= _ ->]. done.
      * intros x x' r'. rewrite (compile_undeclared _ _ _ Ha). by intros [= <- _].
      * by rewrite (init_fresh _ _ _ _ Hi).
    + revert Hr. generalize w0 w1 r.
      change (appends history not_compile (run tg d)).
      unfold run, try_block, except_block, finally_block, classSetup, classTeardown,
        handle_Exception, print_logs, print_log, on_self.
      assert (appends history not_compile (compile tg d)) as Hc.
      { apply appends_nothing. intros x x' r'. rewrite (compile_undeclared _ _ _ Ha).
        by intros [= <- _]. }
      along_with ltac:(apply Hc).
Qed.


(** *** The runner on the suites *)


Lemma outcome_by_exception_type_witness :
  snd (run spike32 failing fresh) = Ok (PyStr "fail")
  /\ snd (run spike32 crashing fresh) = Ok (PyStr "exception")
  /\ snd (run spike32 passing fresh) = Ok (PyStr "pass").
Proof.
  split; [|split].
  - refine (proj1 (outcome_by_exception_type spike32 failing fresh (PyInt 1)
                     (fst (try_block spike32 failing (record CallEarlyApplicable fresh)))
                     (Raise (TestFailed "1 != 2")) eq_refl eq_refl _ _) "1 != 2" eq_refl).
    + vm_compute. reflexivity.
    + intros h e H. injection H as <-. reflexivity.
  - refine (proj1 (proj2 (proj2 (outcome_by_exception_type spike32 crashing fresh (PyInt 1)
                     (fst (try_block spike32 crashing (record CallEarlyApplicable fresh)))
                     (Raise IndexError) eq_refl eq_refl _ _))) IndexError
              eq_refl eq_refl eq_refl eq_refl).
    + vm_compute. reflexivity.
    + intros h e H. injection H as <-. reflexivity.
  - refine (proj1 (proj2 (proj2 (proj2 (proj2
              (outcome_by_exception_type spike32 passing fresh (PyInt 1)
                     (fst (try_block spike32 passing (record CallEarlyApplicable fresh)))
                     (Ok PyNone) eq_refl eq_refl _ _))))) PyNone eq_refl eq_refl).
    + vm_compute. reflexivity.
    + intros h e H. injection H as <-. reflexivity.
Defined.

(** C1 as stated fails: a body that returns a true value gives that value
    and not [pass], and an exception outside Exception leaves [run]. *)
Lemma outcome_counterexample :
  (snd (try_block spike32 skipping (record CallEarlyApplicable fresh)) = Ok (PyStr "skipped")
   /\ snd (run spike32 skipping fresh) = Ok (PyStr "skipped")
   /\ snd (run spike32 skipping fresh) <> Ok (PyStr "pass"))
  /\ (snd (try_block spike32_no_config passing (record CallEarlyApplicable fresh))
        = Raise (SystemExit 1)
      /\ snd (run spike32_no_config passing fresh) = Raise (SystemExit 1)
      /\ snd (run spike32_no_config passing fresh) <> Ok (PyStr "exception")).
Proof. repeat split; by vm_compute. Qed.

Lemma teardown_on_every_exit_path_witness :
  (exists evs,
      history (fst (run spike32 failing fresh)) = history fresh ++ evs ++ [CallClassTeardown]
      /\ Forall not_teardown evs)
  /\ server (self (fst (run spike32 failing fresh))) = Deleted
  /\ target_process (self (fst (run spike32 failing fresh))) = Deleted.
Proof.
  apply (teardown_on_every_exit_path spike32 failing fresh (PyInt 1)
           (fst (run spike32 failing fresh)) (snd (run spike32 failing fresh)));
    [reflexivity | reflexivity | vm_compute; reflexivity].
Defined.

Lemma exit_status_zero_iff_all_good_witness :
  exists lines,
    console (fst (run_all_tests timestamp keep_going spike32 three_tests quiet_console))
      = console quiet_console ++ lines
    /\ (1%Z = 0%Z <->
        forall name result, Finished name result ∈ lines -> result ∈ good_results)
    /\ (1%Z <> 0%Z -> 1%Z = 1%Z).
Proof.
  apply (exit_status_zero_iff_all_good timestamp keep_going spike32 three_tests
           quiet_console).
  vm_compute. reflexivity.
Defined.

Lemma compiled_once_it_has_returned_witness :
  let w0 := fst (__init__ spike32 None fresh) in
  let w1 := fst (run spike32 passing w0) in
  let s2 := fst (run_tests_loop timestamp keep_going spike32 [("C", crashing, None)]
                   ∅ 0%nat {| console := []; tests := w1 |}) in
  let w2 := fst (__init__ spike32 None (tests s2)) in
  let w3 := fst (run spike32 failing w2) in
  binary (self w1) = Some "/tmp/debug_compiled"
  /\ binary (self w3) = Some "/tmp/debug_compiled"
  /\ invocations debug_c (history w3) = 1%nat.
Proof.
  intros w0 w1 s2 w2 w3.
  split; [vm_compute; reflexivity|]. split; [|vm_compute; reflexivity].
  refine (proj1 (proj1 (compiled_once_it_has_returned timestamp keep_going spike32)
           passing failing debug_c "/tmp/debug_compiled" None fresh w0 w1
           (snd (run spike32 passing w0)) [("C", crashing, None)] ∅ 0%nat
           {| console := []; tests := w1 |} s2
           (snd (run_tests_loop timestamp keep_going spike32 [("C", crashing, None)]
                   ∅ 0%nat {| console := []; tests := w1 |}))
           None w2 (PyInt 1) w3 (snd (run spike32 failing w2))
           eq_refl eq_refl _ _ _ _ eq_refl _ _ eq_refl eq_refl _));
    try (vm_compute; reflexivity).
  discriminate.
Defined.

(** C10 as stated fails: a compile that raises is not cached, and the next
    test with the same tuple invokes [target.compile] again. *)
Lemma compile_invoked_again_after_failure :
  invocations debug_c
    (history (tests (fst (run_tests timestamp keep_going spike32_no_compiler
                            [("A", passing, None); ("B", failing, None)]
                            quiet_console)))) = 2%nat.
Proof. by vm_compute. Qed.


(** ** The gdb sessions *)

(** *** Selection of a child *)

Import Gdb.

Lemma preserves_interact {X} pexpect (f : Gdb.t -> X) ev :
  (forall g, f (log_io ev g) = f g) -> preserves f (interact pexpect ev).
Proof. intros H g g' r [= <- _]. apply H. Qed.

Lemma command_preserves {X} pexpect (f : Gdb.t -> X) cmd timeout :
  (forall ev g, f (log_io ev g) = f g) -> preserves f (command pexpect cmd timeout).
Proof.
  intros H. unfold command, sendline, expect.
  along_with ltac:(apply preserves_interact; intros; apply H).
Qed.

Lemma pop_after_push {A} (body : M Gdb.t A) g g1 r :
  preserves stack body ->
  body (set_stack (stack g ++ [active_child g]) g) = (g1, r) ->
  pop_state g1 = (set_active_child (active_child g) (set_stack (stack g) g1), Ok tt).
Proof.
  intros Hb E. apply Hb in E. simpl in E.
  unfold pop_state, bind, get. rewrite E, last_snoc.
  cbv [modify]. by rewrite removelast_last.
Qed.

(** C4.  After [global_command], whether every command went through or
    one raised, the active child and the stack of saved states are what they
    were before.  The same holds of [with PrivateState(self)] around any body
    that leaves the stack as it found it, and such a block is again such a
    body: the discipline composes under nesting. *)
Theorem broadcast_restores_active_session pexpect :
  (forall cmd g g' r,
      global_command pexpect cmd g = (g', r) ->
      active_child g' = active_child g /\ stack g' = stack g)
  /\ (forall A (body : M Gdb.t A),
        preserves stack body ->
        forall g g' r,
          with_PrivateState body g = (g', r) ->
          active_child g' = active_child g /\ stack g' = stack g).
Proof.
  assert (forall A (body : M Gdb.t A),
             preserves stack body ->
             forall g g' r,
               with_PrivateState body g = (g', r) ->
               active_child g' = active_child g /\ stack g' = stack g) as Hwith.
  { intros A body Hb g g' r. unfold with_PrivateState, push_state.
    unfold bind, modify, try_finally.
    destruct (body _) as [g1 r1] eqn:E1.
    rewrite (pop_after_push body g g1 r1 Hb E1).
    by intros [= <- _]. }
  split; [|exact Hwith].
  intros cmd g g' r. apply Hwith.
  unfold select_child. along_with ltac:(first
    [ apply command_preserves; reflexivity
    | apply preserves_modify; reflexivity ]).
Qed.


Lemma resume_events_are_resumes l : Forall is_resume (resume_events l).
Proof.
  induction l as [|c l IH]; [constructor|].
  simpl. repeat constructor; [exists c; auto..|done].
Qed.

Lemma wait_events_are_waits l : Forall is_wait_for_halt (wait_events l).
Proof. induction l as [|c l IH]; [constructor|]. constructor; [by exists c|done]. Qed.

Lemma Forall_prefix {A} (P : A -> Prop) (l1 l2 : list A) :
  l1 `prefix_of` l2 -> Forall P l2 -> Forall P l1.
Proof. intros [k ->] H. by apply Forall_app in H as [H _]. Qed.

Lemma resume_loop_spec pexpect l : forall g g' r,
  for_each l (fun c => sendline pexpect c "c" ;; expect pexpect c "Continuing" (-1) ;; ret tt) g
    = (g', r) ->
  exists evs,
    transcript g' = transcript g ++ evs
    /\ evs `prefix_of` resume_events l
    /\ (r = Ok tt -> evs = resume_events l)
    /\ (forall e, r = Raise e ->
        exists evs0 ev, evs = evs0 ++ [ev] /\ pexpect (transcript g ++ evs0) ev = Raise e).
Proof.
  induction l as [|c l IH]; intros g g' r; simpl.
  - intros [= <- <-]. exists []. rewrite app_nil_r. repeat split; done.
  - unfold bind at 1. unfold sendline, expect, interact, bind, ret. simpl.
    destruct (pexpect (transcript g) _) as [?|e] eqn:E1; simpl.
    + destruct (pexpect (transcript g ++ _) _) as [?|e] eqn:E2; simpl.
      * intros H. apply IH in H as (evs & Ht & Hp & Hok & Hraise). simpl in Ht.
        exists ([resume_issued c; Expect c "Continuing" (-1)] ++ evs).
        rewrite Ht, <- !app_assoc. split; [done|]. split; [|split].
        -- simpl. by do 2 apply prefix_cons.
        -- intros Hr. simpl. by rewrite (Hok Hr).
        -- intros e Hr. destruct (Hraise e Hr) as (evs0 & ev & -> & He).
           exists ([resume_issued c; Expect c "Continuing" (-1)] ++ evs0), ev.
           split; [by rewrite <- !app_assoc|].
           simpl in He. by rewrite <- !app_assoc in He.
      * intros [= <- <-]. simpl.
        exists [resume_issued c; Expect c "Continuing" (-1)].
        rewrite <- !app_assoc. split; [done|]. split; [|split].
        -- do 2 apply prefix_cons. apply prefix_nil.
        -- discriminate.
        -- intros e' [= <-]. by exists [resume_issued c], (Expect c "Continuing" (-1)).
    + intros [= <- <-]. simpl. exists [resume_issued c].
      split; [done|]. split; [|split].
      * apply prefix_cons, prefix_nil.
      * discriminate.
      * intros e' [= <-]. exists [], (resume_issued c). by rewrite app_nil_r.
Qed.

Lemma wait_loop_spec pexpect l : forall g g' r,
  for_each l (fun c => expect pexpect c prompt (-1) ;; ret tt) g = (g', r) ->
  exists evs,
    transcript g' = transcript g ++ evs
    /\ evs `prefix_of` wait_events l
    /\ (r = Ok tt -> evs = wait_events l)
    /\ (forall e, r = Raise e ->
        exists evs0 ev, evs = evs0 ++ [ev] /\ pexpect (transcript g ++ evs0) ev = Raise e).
Proof.
  induction l as [|c l IH]; intros g g' r; simpl.
  - intros [= <- <-]. exists []. rewrite app_nil_r. repeat split; done.
  - unfold bind at 1. unfold expect, interact, bind, ret. simpl.
    destruct (pexpect (transcript g) _) as [?|e] eqn:E1; simpl.
    + intros H. apply IH in H as (evs & Ht & Hp & Hok & Hraise). simpl in Ht.
      exists (Expect c prompt (-1) :: evs). rewrite Ht, <- app_assoc.
      split; [done|]. split; [|split].
      * by apply prefix_cons.
      * intros Hr. by rewrite (Hok Hr).
      * intros e Hr. destruct (Hraise e Hr) as (evs0 & ev & -> & He).
        exists (Expect c prompt (-1) :: evs0), ev. split; [done|].
        simpl in He. by rewrite <- app_assoc in He.
    + intros [= <- <-]. simpl. exists [Expect c prompt (-1)].
      split; [done|]. split; [|split].
      * apply prefix_cons, prefix_nil.
      * discriminate.
      * intros e' [= <-]. exists [], (Expect c prompt (-1)). by rewrite app_nil_r.
Qed.

(** C5.  What [c_all] asks of the children is the resumes followed by the
    waits, and nothing else.  The resumes are the first of
    [sendline("c")], [expect("Continuing")] for each child in turn, the waits
    the first of the expectations of the prompt for each child in turn; a
    wait is there only when every child has been resumed.  When [c_all]
    returns, every child has been resumed and then waited for; when it
    raises, the exception is the one the last of these calls has raised. *)
Theorem resume_all_before_any_wait pexpect g g' r :
  c_all pexpect g = (g', r) ->
  exists resumes waits,
    transcript g' = transcript g ++ resumes ++ waits
    /\ Forall is_resume resumes
    /\ Forall is_wait_for_halt waits
    /\ Forall (fun ev => ~ is_wait_for_halt ev) resumes
    /\ (waits <> [] -> forall c, c ∈ children g -> resume_issued c ∈ resumes)
    /\ resumes `prefix_of` resume_events (children g)
    /\ waits `prefix_of` wait_events (children g)
    /\ (waits <> [] -> resumes = resume_events (children g))
    /\ (r = Ok tt ->
        resumes = resume_events (children g) /\ waits = wait_events (children g))
    /\ (forall e, r = Raise e ->
        exists evs ev, resumes ++ waits = evs ++ [ev]
                       /\ pexpect (transcript g ++ evs) ev = Raise e).
Proof.
  unfold c_all, with_PrivateState, push_state.
  unfold bind at 1. unfold modify at 1. unfold try_finally.
  set (body := (g1 <- get ;; _)).
  assert (preserves stack body) as Hstack.
  { unfold body, sendline, expect.
    along_with ltac:(apply preserves_interact; reflexivity). }
  set (g0 := set_stack _ g).
  destruct (body g0) as [g2 r2] eqn:E2.
  rewrite (pop_after_push body g g2 r2 Hstack E2).
  intros [= <- <-]. cbn [transcript set_active_child set_stack].
  revert E2. unfold body, bind at 1, get at 1. unfold bind at 1.
  change (children g0) with (children g).
  destruct (for_each (children g) _ g0) as [ga ra] eqn:Ea.
  apply resume_loop_spec in Ea as (resumes & Ht & Hp & Hok & Hraise).
  change (transcript g0) with (transcript g) in Ht, Hraise.
  assert (Forall is_resume resumes) as F
    by (eapply Forall_prefix; [exact Hp|apply resume_events_are_resumes]).
  assert (Forall (fun ev => ~ is_wait_for_halt ev) resumes) as Hnw.
  { eapply Forall_impl; [exact F|]. intros ev [c [->| ->]] [c' Hc']; discriminate. }
  assert (forall cs c, c ∈ cs -> resume_issued c ∈ resume_events cs) as Hin.
  { intros cs c Hc. unfold resume_events. apply list_elem_of_In, in_flat_map.
    exists c. split; [by apply list_elem_of_In|]. by left. }
  destruct ra as [[]|e].
  - intros Eb. apply wait_loop_spec in Eb as (waits & Ht' & Hp' & Hok' & Hraise').
    rewrite (Hok eq_refl) in *.
    exists (resume_events (children g)), waits.
    rewrite Ht', Ht, <- app_assoc. split; [done|]. split; [done|].
    split; [eapply Forall_prefix; [exact Hp'|apply wait_events_are_waits]|].
    split; [done|]. split; [intros _ c Hc; by apply Hin|].
    split; [done|]. split; [done|]. split; [done|]. split.
    + intros ->. split; [done|]. by apply Hok'.
    + intros e ->. destruct (Hraise' e eq_refl) as (evs0 & ev & -> & He).
      exists (resume_events (children g) ++ evs0), ev.
      split; [by rewrite app_assoc|]. by rewrite Ht, <- app_assoc in He.
  - intros [= <- <-]. exists resumes, []. rewrite app_nil_r.
    split; [done|]. split; [done|]. split; [constructor|]. split; [done|].
    split; [done|]. split; [done|]. split; [apply prefix_nil|]. split; [done|].
    split; [discriminate|].
    intros e' [= <-]. destruct (Hraise e eq_refl) as (evs0 & ev & -> & He).
    by exists evs0, ev.
Qed.


(** *** Strings *)

Lemma app_cons (c : Ascii.ascii) (a b : string) : String c a +:+ b = String c (a +:+ b).
Proof. reflexivity. Qed.

Lemma app_empty_l (b : string) : "" +:+ b = b.
Proof. reflexivity. Qed.

Lemma length_app_string (a b : string) :
  String.length (a +:+ b) = (String.length a + String.length b)%nat.
Proof. induction a as [|c a IH]; [done|]. rewrite app_cons. simpl. by rewrite IH. Qed.

Lemma app_assoc_string (a b c : string) : (a +:+ b) +:+ c = a +:+ b +:+ c.
Proof. induction a as [|x a IH]; [done|]. by rewrite !app_cons, IH. Qed.

Lemma prefix_app (p rest : string) : String.prefix p (p +:+ rest) = true.
Proof.
  induction p as [|c p IH]; [by destruct rest|].
  rewrite app_cons. simpl. destruct (Ascii.ascii_dec c c); [done|congruence].
Qed.

Lemma prefix_inv (p s : string) :
  String.prefix p s = true -> exists rest, s = p +:+ rest.
Proof.
  revert s. induction p as [|c p IH]; intros [|c' s]; simpl; try done.
  - intros _. by exists "".
  - intros _. by exists (String c' s).
  - destruct (Ascii.ascii_dec c c') as [->|]; [|done].
    intros H. apply IH in H as [rest ->]. by exists rest.
Qed.

Lemma drop_app (p rest : string) : Str.drop (String.length p) (p +:+ rest) = rest.
Proof. induction p as [|c p IH]; [by destruct rest|]. by rewrite app_cons. Qed.

Lemma search_unfold {A} lit (tail : string -> option A) s :
  Str.search lit tail s =
    match (if String.prefix lit s then tail (Str.drop (String.length lit) s) else None) with
    | Some r => Some r
    | None =>
        match s with
        | "" => None
        | String _ s' => Str.search lit tail s'
        end
    end.
Proof. by destruct s. Qed.

Lemma search_sound {A} lit (tail : string -> option A) s r :
  Str.search lit tail s = Some r ->
  exists pre rest, s = pre +:+ lit +:+ rest /\ tail rest = Some r.
Proof.
  assert (forall s, (if String.prefix lit s
                     then tail (Str.drop (String.length lit) s) else None) = Some r ->
                    exists rest, s = lit +:+ rest /\ tail rest = Some r) as Hhere.
  { intros s'. destruct (String.prefix lit s') eqn:E; [|done].
    apply prefix_inv in E as [rest ->]. rewrite drop_app. eauto. }
  induction s as [|c s IH]; rewrite search_unfold;
    destruct (if String.prefix lit _ then _ else _) as [r'|] eqn:E.
  - intros [= ->]. apply Hhere in E as (rest & E & Hr). by exists "", rest.
  - done.
  - intros [= ->]. apply Hhere in E as (rest & E & Hr). by exists "", rest.
  - intros H. apply IH in H as (pre & rest & -> & Hr).
    by exists (String c pre), rest.
Qed.

Lemma search_complete {A} lit (tail : string -> option A) pre rest :
  is_Some (tail rest) -> is_Some (Str.search lit tail (pre +:+ lit +:+ rest)).
Proof.
  intros [r Hr].
  induction pre as [|c pre IH]; rewrite search_unfold.
  - rewrite app_empty_l, prefix_app, drop_app, Hr. eauto.
  - rewrite app_cons. destruct (if String.prefix lit _ then _ else _); eauto.
Qed.

Lemma span_spec p s a b :
  Str.span p s = (a, b) -> s = a +:+ b /\ all_in p a /\ stops p b.
Proof.
  revert a b. induction s as [|c s IH]; intros a b; simpl.
  - by intros [= <- <-].
  - destruct (p c) eqn:Ec.
    + destruct (Str.span p s) as [a' b'] eqn:E. intros [= <- <-].
      destruct (IH _ _ eq_refl) as (-> & Ha & Hb). by repeat split.
    + intros [= <- <-]. by repeat split.
Qed.

Lemma span_app p a b :
  all_in p a -> exists b1 b2, Str.span p (a +:+ b) = (a +:+ b1, b2) /\ b = b1 +:+ b2.
Proof.
  induction a as [|c a IH].
  - intros _. rewrite app_empty_l. destruct (Str.span p b) as [b1 b2] eqn:E.
    exists b1, b2. split; [done|]. by apply span_spec in E as [-> _].
  - intros [Hc Ha]. rewrite app_cons. simpl. rewrite Hc.
    destruct (IH Ha) as (b1 & b2 & -> & ->). by exists b1, b2.
Qed.


Lemma rev_app_app (s t acc : string) :
  String.rev_app (s +:+ t) acc = String.rev_app t (String.rev_app s acc).
Proof.
  revert acc. induction s as [|c s IH]; intros acc; [done|].
  rewrite app_cons. simpl. apply IH.
Qed.

Lemma rev_snoc (s : string) (c : Ascii.ascii) :
  String.rev (s +:+ String c "") = String c (String.rev s).
Proof. unfold String.rev. by rewrite rev_app_app. Qed.

Lemma rev_app_spec (s acc : string) : String.rev_app s acc = String.rev s +:+ acc.
Proof.
  revert acc. unfold String.rev. induction s as [|c s IH]; intros acc; [done|].
  simpl. rewrite (IH (String c "")), IH, app_assoc_string. done.
Qed.

Lemma rev_cons (s : string) (c : Ascii.ascii) :
  String.rev (String c s) = String.rev s +:+ String c "".
Proof. unfold String.rev at 1. simpl. apply rev_app_spec. Qed.

Lemma rev_involutive (s : string) : String.rev (String.rev s) = s.
Proof.
  induction s as [|c s IH]; [done|]. by rewrite rev_cons, rev_snoc, IH.
Qed.

Lemma length_rev_string (s : string) : String.length (String.rev s) = String.length s.
Proof.
  induction s as [|c s IH]; [done|].
  rewrite rev_cons, length_app_string, IH. simpl. lia.
Qed.

Lemma last_char p (s : string) :
  s <> "" -> all_in p s -> exists s' c, s = s' +:+ String c "" /\ p c = true.
Proof.
  induction s as [|c s IH]; [done|]. intros _ [Hc Hs].
  destruct s as [|c' s].
  - by exists "", c.
  - destruct IH as (s' & c'' & -> & Hc''); [done|done|].
    by exists (String c s'), c''.
Qed.

Lemma strip_id (c : Ascii.ascii) (s : string) (c' : Ascii.ascii) :
  Ascii.is_space c = false -> Ascii.is_space c' = false ->
  Str.strip (String c s +:+ String c' "") = String c s +:+ String c' "".
Proof.
  intros Hc Hc'. unfold Str.strip, Str.rstrip.
  assert (Str.lstrip (String c s +:+ String c' "") = String c s +:+ String c' "") as ->.
  { rewrite app_cons. simpl. by rewrite Hc. }
  rewrite rev_snoc. simpl. rewrite Hc'. by rewrite <- rev_snoc, rev_involutive.
Qed.

Lemma lower_hex_not_space c : Str.is_lower_hex c = true -> Ascii.is_space c = false.
Proof. destruct c as [[] [] [] [] [] [] [] []]; by vm_compute. Qed.

Lemma lower_hex_value c :
  Str.is_lower_hex c = true -> exists d, Str.digit_value c = Some d /\ (0 <= d < 16)%Z.
Proof.
  destruct c as [[] [] [] [] [] [] [] []]; intros H; vm_compute in H;
    try discriminate H; eexists; (split; [vm_compute; reflexivity|lia]).
Qed.

Lemma digits_value_hex ds : forall acc,
  all_in Str.is_lower_hex ds -> is_Some (Str.digits_value 16 acc ds).
Proof.
  induction ds as [|c ds IH]; intros acc; simpl; [by eauto|].
  intros [Hc Hds]. destruct (lower_hex_value c Hc) as (d & -> & Hd).
  destruct (d <? 16)%Z eqn:E; [by apply IH|]. apply Z.ltb_ge in E. lia.
Qed.

(** The group of the search is [0x] and hexadecimal digits, and
    [int(group, 0)] is the number they write. *)
Lemma search_cannot_access_group output group :
  search_cannot_access output = Some group ->
  exists pre ds post a,
    output = pre +:+ "Cannot access memory at address 0x" +:+ ds +:+ post
    /\ ds <> "" /\ all_in Str.is_lower_hex ds /\ stops Str.is_lower_hex post
    /\ group = "0x" +:+ ds
    /\ Str.digits_value 16 0 ds = Some a
    /\ Str.int0 group = Ok a.
Proof.
  unfold search_cannot_access. intros H.
  apply search_sound in H as (pre & rest & -> & H).
  destruct (Str.span Str.is_lower_hex rest) as [ds post] eqn:E.
  destruct (decide (ds = "")) as [|Hne]; [done|]. injection H as <-.
  apply span_spec in E as (-> & Hds & Hpost).
  destruct (digits_value_hex ds 0 Hds) as [a Ha].
  exists pre, ds, post, a. repeat split; try done.
  destruct (last_char _ ds Hne Hds) as (ds' & c & -> & Hc).
  unfold Str.int0.
  change ("0x" +:+ ds' +:+ String c "") with (String "0" (String "x" ds') +:+ String c "").
  rewrite strip_id; [|done|by apply lower_hex_not_space].
  change (String "0" (String "x" ds') +:+ String c "")
    with (String "0" (String "x" (ds' +:+ String c ""))).
  cbv beta iota. unfold Str.literal.
  rewrite decide_True by (by left). unfold Str.number.
  rewrite decide_False by done. by rewrite Ha.
Qed.

Lemma search_cannot_access_matches output :
  is_Some (search_cannot_access output) <-> matches_cannot_access output.
Proof.
  split.
  - intros [group H]. apply search_cannot_access_group in H
      as (pre & ds & post & a & -> & Hne & Hds & _). by exists pre, ds, post.
  - intros (pre & ds & post & -> & Hne & Hds). apply search_complete.
    destruct (span_app _ ds post Hds) as (b1 & b2 & -> & _).
    rewrite decide_False; [by eauto|]. by destruct ds.
Qed.


Lemma int0_raises text e : Str.int0 text = Raise e -> e = ValueError.
Proof.
  unfold Str.int0.
  match goal with |- match ?v with _ => _ end = _ -> _ => destruct v end; by intros [=].
Qed.

Lemma comprehension_raises {A B} (f : A -> option (result B)) (P : exn -> Prop) l :
  (forall a e, f a = Some (Raise e) -> P e) ->
  forall e, comprehension f l = Some (Raise e) -> P e.
Proof.
  intros Hf. induction l as [|a l IH]; intros e; simpl; [done|].
  destruct (f a) as [[b|e']|] eqn:E; [|intros [= <-]; eauto|done].
  destruct (comprehension f l) as [[bs|e']|]; [done| |done].
  intros [= <-]. by apply IH.
Qed.

Lemma parse_string_fuel_raises fuel : forall text e,
  parse_string_fuel fuel text = Some (Raise e) -> e = ValueError.
Proof.
  induction fuel as [|fuel IH]; intros text e; simpl; [done|].
  destruct (_ && _).
  - destruct (comprehension _ _) as [[l|e']|] eqn:E; [done| |done].
    intros [= <-]. eapply (comprehension_raises _ (fun e => e = ValueError)); eauto.
  - destruct (_ && _); [done|].
    destruct (Str.int0 _) as [n|e'] eqn:E; [done|]. intros [= <-].
    by apply int0_raises in E.
Qed.

Lemma parse_string_raises text e :
  parse_string text = Raise e -> e = ValueError \/ exists m, e = RuntimeError m.
Proof.
  unfold parse_string. destruct (parse_string_fuel _ _) as [[v|e']|] eqn:E.
  - done.
  - intros [= <-]. left. by apply parse_string_fuel_raises in E.
  - intros [= <-]. eauto.
Qed.

(** C3, amended.  For a print command sent by [p] or by [p_raw], with
    [output] the response that [command] hands back: when the pattern occurs
    in [output], CannotAccess is raised with the address that the hexadecimal
    digits of an occurrence write, and nothing is returned; when it does not
    occur, [p] raises no CannotAccess and [p_raw] returns a text. *)
Theorem cannot_access_raised_by_print pexpect :
  (forall obj fmt g g' output,
      command pexpect ("p" +:+ fmt +:+ " " +:+ obj) 6000 g = (g', Ok output) ->
      (matches_cannot_access output ->
       exists pre ds post a,
         output = pre +:+ "Cannot access memory at address 0x" +:+ ds +:+ post
         /\ ds <> "" /\ all_in Str.is_lower_hex ds /\ stops Str.is_lower_hex post
         /\ Str.digits_value 16 0 ds = Some a
         /\ p pexpect obj fmt g = (g', Raise (CannotAccess a)))
      /\ (~ matches_cannot_access output ->
          forall a, snd (p pexpect obj fmt g) <> Raise (CannotAccess a)))
  /\ (forall obj g g' output,
        command pexpect ("p " +:+ obj) 6000 g = (g', Ok output) ->
        (matches_cannot_access output ->
         exists pre ds post a,
           output = pre +:+ "Cannot access memory at address 0x" +:+ ds +:+ post
           /\ ds <> "" /\ all_in Str.is_lower_hex ds /\ stops Str.is_lower_hex post
           /\ Str.digits_value 16 0 ds = Some a
           /\ p_raw pexpect obj g = (g', Raise (CannotAccess a)))
        /\ (~ matches_cannot_access output ->
            exists text, p_raw pexpect obj g = (g', Ok text))).
Proof.
  split.
  - intros obj fmt g g' output Hcmd. split.
    + intros [group Hg]%search_cannot_access_matches.
      destruct (search_cannot_access_group _ _ Hg)
        as (pre & ds & post & a & Ho & Hne & Hds & Hpost & _ & Ha & Hint).
      exists pre, ds, post, a. repeat split; try done.
      unfold p, bind at 1. rewrite Hcmd, Hg. unfold bind, lift, raise. by rewrite Hint.
    + intros Hno a. unfold p, bind. rewrite Hcmd.
      destruct (search_cannot_access output) as [group|] eqn:Hg.
      { destruct Hno. apply search_cannot_access_matches. eauto. }
      unfold lift. simpl. intros H. apply parse_string_raises in H as [?|[m ?]]; done.
  - intros obj g g' output Hcmd. split.
    + intros [group Hg]%search_cannot_access_matches.
      destruct (search_cannot_access_group _ _ Hg)
        as (pre & ds & post & a & Ho & Hne & Hds & Hpost & _ & Ha & Hint).
      exists pre, ds, post, a. repeat split; try done.
      unfold p_raw, bind at 1. rewrite Hcmd, Hg. unfold bind, lift, raise. by rewrite Hint.
    + intros Hno. unfold p_raw, bind. rewrite Hcmd.
      destruct (search_cannot_access output) as [group|] eqn:Hg.
      { destruct Hno. apply search_cannot_access_matches. eauto. }
      by eexists.
Qed.


Lemma length_drop n (s : string) :
  String.length (Str.drop n s) = (String.length s - n)%nat.
Proof.
  revert s. induction n as [|n IH]; intros [|c s]; simpl; done.
Qed.

Lemma length_lstrip (s : string) : (String.length (Str.lstrip s) <= String.length s)%nat.
Proof.
  induction s as [|c s IH]; simpl; [done|].
  destruct (Ascii.is_space c); simpl; lia.
Qed.

Lemma length_strip (s : string) : (String.length (Str.strip s) <= String.length s)%nat.
Proof.
  unfold Str.strip, Str.rstrip. rewrite length_rev_string.
  etrans; [apply length_lstrip|]. rewrite length_rev_string. apply length_lstrip.
Qed.

Lemma length_inner (s : string) :
  s <> "" -> (String.length (Str.inner s) < String.length s)%nat.
Proof.
  intros Hne. unfold Str.inner.
  rewrite length_rev_string, length_drop, length_rev_string, length_drop.
  destruct s; [done|]. simpl. lia.
Qed.

Lemma length_split_go sep : forall s skip cur piece,
  piece ∈ Str.split_go sep skip cur s ->
  (String.length piece <= String.length cur + String.length s)%nat.
Proof.
  induction s as [|c s IH]; intros skip cur piece; simpl.
  - intros ->%list_elem_of_singleton. rewrite length_rev_string. lia.
  - destruct skip as [|k].
    + match goal with |- context [if ?b then _ else _] => destruct b end.
      * intros [->|H]%elem_of_cons.
        -- rewrite length_rev_string. lia.
        -- apply IH in H. simpl in H. lia.
      * intros H. apply IH in H. simpl in H. lia.
    + intros H. apply IH in H. lia.
Qed.

Lemma comprehension_fuelled {A B} (f : A -> option (result B)) l :
  (forall a, a ∈ l -> is_Some (f a)) -> is_Some (comprehension f l).
Proof.
  induction l as [|a l IH]; intros Hf; simpl; [by eauto|].
  destruct (Hf a) as [[b|e] ->]; [by left| |by eauto].
  destruct IH as [[bs|e] ->]; [|by eauto..].
  intros a' Ha'. apply Hf. by right.
Qed.

(** The length of the text is fuel enough. *)
Lemma parse_string_fuel_enough fuel : forall text,
  (String.length text < fuel)%nat -> is_Some (parse_string_fuel fuel text).
Proof.
  induction fuel as [|fuel IH]; intros text Hlen; [lia|]. simpl.
  destruct (Str.startswith "{" (Str.strip text)) eqn:Hs; simpl.
  - destruct (Str.endswith "}" (Str.strip text)).
    + assert (is_Some (comprehension (parse_string_fuel fuel)
                         (Str.split ", " (Str.inner (Str.strip text))))) as [[l|e] ->];
        [|by eauto..].
      apply comprehension_fuelled. intros piece Hp. apply IH.
      apply length_split_go in Hp. simpl in Hp.
      pose proof (length_strip text).
      assert (Str.strip text <> "") as Hne by (intros E; by rewrite E in Hs).
      pose proof (length_inner _ Hne). lia.
    + destruct (_ && _); [by eauto|]. destruct (Str.int0 _); eauto.
  - destruct (_ && _); [by eauto|]. destruct (Str.int0 _); eauto.
Qed.

(** [parse_string] returns or raises ValueError. *)
Lemma parse_string_value_error text e : parse_string text = Raise e -> e = ValueError.
Proof.
  unfold parse_string.
  destruct (parse_string_fuel_enough (S (String.length text)) text) as [r Hr]; [lia|].
  rewrite Hr. intros ->. by apply parse_string_fuel_raises in Hr.
Qed.


(** *** Unit identifiers *)

Lemma hartid_labelled harts t n : search_hart t = Some n -> hartid harts t = n.
Proof. intros H. unfold hartid. by rewrite H. Qed.

Lemma hartid_synthesized harts t :
  search_hart t = None ->
  (hartid harts t ∉ dom harts)
  /\ (harts = ∅ -> hartid harts t = 0%nat)
  /\ (harts <> ∅ -> hartid harts t = S (max_list (elements (dom harts)))).
Proof.
  intros H. unfold hartid. rewrite H. destruct (decide (harts = ∅)) as [->|Hne].
  - split; [|done]. rewrite dom_empty. apply not_elem_of_empty.
  - split; [|done]. intros Hin. apply elem_of_elements, max_list_elem_of_le in Hin. lia.
Qed.

(** C6 fails on the code.  A gdb lists a thread named Default and then a
    thread named Hart 0: [connect] gives the first the synthesized
    identifier 0 and the second the identifier 0 of its name, and [harts]
    ends with one entry for the two units. *)
Theorem unit_identifiers_collide :
  exists g,
    Gdb.__init__ [3333%Z] 60 None = Ok g
    /\ snd (threads two_threads g) = Ok [thread_default; thread_hart0]
    /\ hartid ∅ thread_default = 0%nat
    /\ hartid {[ 0%nat := (0%nat, thread_default) ]} thread_hart0 = 0%nat
    /\ snd (connect two_threads g) = Ok tt
    /\ harts (fst (connect two_threads g)) = {[ 0%nat := (0%nat, thread_hart0) ]}.
Proof.
  eexists. split; [reflexivity|]. repeat split; try by vm_compute.
Qed.


(** ** Waiting for a simulator, and letting go of it *)

Lemma listen_silent fuel : forall i s, VcsSim.listen silent_simv fuel i s = None.
Proof. induction fuel as [|fuel IH]; intros i s; simpl; [done|]. apply IH. Qed.

(** C7 fails on the code.  With a [simv] that keeps running and never
    announces its port, the loop of [VcsSim.__init__] is still running after
    any number of turns: no timeout ends it. *)
Theorem vcs_wait_has_no_timeout :
  forall fuel, VcsSim.__init__ silent_simv fuel VcsSim.blank = None.
Proof. intros fuel. unfold VcsSim.__init__. simpl. apply listen_silent. Qed.

(** The wait of [Spike.__init__] is over after [n] readings at most. *)
Lemma spike_poll_returns env n : forall s,
  exists s', Spike.poll env n s = (s', Ok tt)
             /\ (Spike.slept s' <= Spike.slept s + n)%nat
             /\ (Spike.reads s' <= Spike.reads s + n)%nat
             /\ Spike.printed s' = Spike.printed s
             /\ Spike.process s' = Spike.process s.
Proof.
  induction n as [|n IH]; intros s; simpl.
  - exists s. repeat split; lia.
  - cbv [bind Spike.read]. destruct (Spike.search_port _).
    + eexists. split; [reflexivity|]. simpl. repeat split; lia.
    + cbv [modify]. destruct (IH (Spike.sleep
        {| Spike.process := Spike.process s; Spike.port := Spike.port s;
           Spike.reads := S (Spike.reads s); Spike.slept := Spike.slept s;
           Spike.printed := Spike.printed s |})) as (s' & -> & H1 & H2 & H3 & H4).
      exists s'. simpl in *. repeat split; try done; lia.
Qed.

Lemma spike_poll_silent env n s :
  (forall i, Spike.search_port (Spike.read_log env i) = None) ->
  Spike.poll env n s =
    ({| Spike.process := Spike.process s; Spike.port := Spike.port s;
        Spike.reads := Spike.reads s + n; Spike.slept := Spike.slept s + n;
        Spike.printed := Spike.printed s |}, Ok tt).
Proof.
  intros Hno. revert s. induction n as [|n IH]; intros s; simpl.
  - rewrite !Nat.add_0_r. by destruct s.
  - cbv [bind Spike.read]. rewrite Hno. cbv [modify]. rewrite IH. simpl.
    do 2 f_equal; lia.
Qed.

(** When the announcement never comes, [Spike.__init__] gives up after 30
    readings, prints the log and raises. *)
Lemma spike_wait_times_out env p :
  Spike.prepare env = Ok tt -> Spike.popen env = Ok p ->
  (forall i, Spike.search_port (Spike.read_log env i) = None) ->
  exists s,
    Spike.__init__ env true Spike.blank =
      (s, Raise (Exception "Didn't get spike message about bitbang connection"))
    /\ Spike.slept s = 30%nat
    /\ Spike.printed s = [Spike.read_log env 30].
Proof.
  intros Hprep Hpopen Hno. unfold Spike.__init__.
  cbv [bind modify lift get]. rewrite Hprep, Hpopen.
  rewrite (spike_poll_silent env 30 _ Hno). simpl.
  eexists. split; [reflexivity|]. by split.
Qed.

(** [Spike.__del__] raises nothing once [__init__] has begun, and a second
    call changes nothing. *)
Lemma spike_del_idempotent s :
  Spike.process s <> Unset ->
  exists s', Spike.__del__ s = (s', Ok tt) /\ Spike.__del__ s' = (s', Ok tt).
Proof.
  intros Hp. unfold Spike.__del__. cbv [bind get].
  destruct s as [[| |[]] port reads slept printed]; [done|..]; simpl;
    eexists; (split; [reflexivity|reflexivity]).
Qed.

(** So does [VcsSim.__del__] on a handle whose process was spawned. *)
Lemma vcs_del_idempotent s st :
  VcsSim.process s = Popen st ->
  exists s', VcsSim.__del__ s = (s', Ok tt) /\ VcsSim.__del__ s' = (s', Ok tt).
Proof.
  intros Hp. destruct s as [p port slept]. simpl in Hp. subst p.
  destruct st; eexists; (split; [reflexivity|reflexivity]).
Qed.

(** C8 fails on the code.  When [subprocess.Popen] raises,
    [VcsSim.__init__] leaves an object without the attribute [process], and
    [__del__] on it raises AttributeError. *)
Theorem vcs_del_raises_when_never_started :
  forall fuel,
    VcsSim.__init__ missing_simv fuel VcsSim.blank = Some (VcsSim.blank, Raise OSError)
    /\ VcsSim.__del__ VcsSim.blank = (VcsSim.blank, Raise AttributeError).
Proof. intros fuel. split; reflexivity. Qed.


(** [Openocd.start] has a timeout, but tests it only after a line has been
    read: with a server that keeps running and writes nothing the loop is
    still running after any number of turns, however much time has gone. *)
Lemma openocd_start_loop_silent fuel : forall i messaged s,
  Openocd.start_loop silent_openocd fuel i messaged s = None.
Proof. induction fuel as [|fuel IH]; intros i messaged s; simpl; [done|]. apply IH. Qed.

Lemma openocd_wait_skips_timeout :
  forall fuel, Openocd.__init__ silent_openocd 60 fuel Openocd.blank = None.
Proof.
  intros fuel. unfold Openocd.__init__, Openocd.start. simpl.
  by rewrite openocd_start_loop_silent.
Qed.

(** [Openocd.__del__] raises nothing, started or not. *)
Lemma openocd_del_never_raises s : exists s', Openocd.__del__ s = (s', Ok tt).
Proof.
  destruct s as [[| |[]] ports timeout slept message printed]; eexists; reflexivity.
Qed.

(** ** The sessions on the gdbs *)

Lemma broadcast_restores_active_session_witness :
  active_child (fst (global_command second_hangs "set confirm off" two_gdbs)) = 0%nat
  /\ snd (global_command second_hangs "set confirm off" two_gdbs) = Raise TIMEOUT
  /\ active_child
       (fst (with_PrivateState
               (select_child 1%nat ;; global_command second_hangs "set confirm off")
               two_gdbs)) = active_child two_gdbs.
Proof.
  pose proof (broadcast_restores_active_session second_hangs) as [Hglobal Hwith].
  split; [|split].
  - refine (proj1 (Hglobal "set confirm off" two_gdbs _ _ _)).
    apply surjective_pairing.
  - vm_compute. reflexivity.
  - refine (proj1 (Hwith unit
                     (select_child 1%nat ;; global_command second_hangs "set confirm off")
                     _ two_gdbs _ _ _)); [|apply surjective_pairing].
    apply preserves_bind; [by apply preserves_modify|].
    intros _ g g' r H. apply Hglobal in H as [_ H]. exact H.
Defined.

Lemma resume_all_before_any_wait_witness :
  snd (c_all prompt_at_once two_gdbs) = Ok tt
  /\ exists resumes waits,
       transcript (fst (c_all prompt_at_once two_gdbs)) =
         transcript two_gdbs ++ resumes ++ waits
       /\ Forall is_resume resumes
       /\ Forall is_wait_for_halt waits
       /\ Forall (fun ev => ~ is_wait_for_halt ev) resumes
       /\ (waits <> [] -> forall c, c ∈ children two_gdbs -> resume_issued c ∈ resumes)
       /\ resumes `prefix_of` resume_events (children two_gdbs)
       /\ waits `prefix_of` wait_events (children two_gdbs)
       /\ (waits <> [] -> resumes = resume_events (children two_gdbs))
       /\ (snd (c_all prompt_at_once two_gdbs) = Ok tt ->
           resumes = resume_events (children two_gdbs)
           /\ waits = wait_events (children two_gdbs))
       /\ (forall e, snd (c_all prompt_at_once two_gdbs) = Raise e ->
           exists evs ev, resumes ++ waits = evs ++ [ev]
                          /\ prompt_at_once (transcript two_gdbs ++ evs) ev = Raise e).
Proof.
  split; [vm_compute; reflexivity|].
  apply (resume_all_before_any_wait prompt_at_once two_gdbs
           (fst (c_all prompt_at_once two_gdbs)) (snd (c_all prompt_at_once two_gdbs))).
  vm_compute. reflexivity.
Defined.

Lemma cannot_access_raised_by_print_witness :
  exists pre ds post a,
    "Cannot access memory at address 0x10" =
      pre +:+ "Cannot access memory at address 0x" +:+ ds +:+ post
    /\ ds <> "" /\ all_in Str.is_lower_hex ds /\ stops Str.is_lower_hex post
    /\ Str.digits_value 16 0 ds = Some a
    /\ p unreadable "*((int*)0x10)" "/x" one_gdb =
         (fst (command unreadable "p/x *((int*)0x10)" 6000 one_gdb),
          Raise (CannotAccess a)).
Proof.
  refine (proj1 (proj1 (cannot_access_raised_by_print unreadable)
                   "*((int*)0x10)" "/x" one_gdb
                   (fst (command unreadable "p/x *((int*)0x10)" 6000 one_gdb))
                   "Cannot access memory at address 0x10" _) _).
  - vm_compute. reflexivity.
  - exists "", "10", "". repeat split; vm_compute; congruence.
Defined.

(** C3 as stated fails: [command] hands the matching response back as
    text, and [x] on it raises IndexError. *)
Lemma cannot_access_counterexample :
  snd (command unreadable "x/w 0x10" 6000 one_gdb) =
    Ok "Cannot access memory at address 0x10"
  /\ matches_cannot_access "Cannot access memory at address 0x10"
  /\ snd (x unreadable "0x10" "w" one_gdb) = Raise IndexError.
Proof.
  split; [by vm_compute|]. split; [|by vm_compute].
  exists "", "10", "". repeat split; vm_compute; congruence.
Qed.

